(** * JonSnow: Google Play review notifier -- a shallow embedding of main.go

    The program fetches the storefront page of an application, reads the
    review blocks of the page into [Review] records, sorts them by recency,
    keeps the ones whose permalink is not yet in the [review] table, and posts
    the first [ReviewCount] of those to a Slack webhook.

    Go strings are byte strings: they are modelled by [string], one [ascii]
    per byte.  Go's [int] values are modelled by [Z] where they are computed
    with, and by [nat] where they only index or count.  The standard library
    functions the program calls ([strings.Split], [strings.Contains],
    [strings.Repeat], [time.Parse], [sort.Sort], and the [utf8] helpers behind
    them) are written out after their Go sources, under their Go names. *)

From Stdlib Require Import ZArith Lia String Ascii List.
From stdpp Require Import base option list strings sorting.

Open Scope string_scope.
Open Scope list_scope.

(* ===================================================================== *)
(** * Part I: the embedding                                               *)
(* ===================================================================== *)

(** ** Byte strings *)

(** [s[:n]] and [s[n:]] for [n <= len(s)]. *)
Fixpoint slice_to (n : nat) (s : string) : string :=
  match n, s with
  | S n', String c s' => String c (slice_to n' s')
  | _, _ => ""
  end.

Fixpoint slice_from (n : nat) (s : string) : string :=
  match n, s with
  | S n', String _ s' => slice_from n' s'
  | _, _ => s
  end.

(** The byte value of a character. *)
Definition byte (c : ascii) : N := N_of_ascii c.

(** ** package strings *)

(** [strings.HasPrefix(s, prefix)]. *)
Fixpoint strings_HasPrefix (s prefix : string) {struct prefix} : bool :=
  match prefix, s with
  | "", _ => true
  | String p prefix', String c s' =>
      if Ascii.eqb c p then strings_HasPrefix s' prefix' else false
  | String _ _, "" => false
  end.

(** [strings.Index(s, substr)]: the index of the first instance of [substr]
    in [s]; [None] stands for Go's [-1]. *)
Fixpoint strings_Index (s substr : string) : option nat :=
  if strings_HasPrefix s substr then Some 0
  else match s with
       | "" => None
       | String _ s' => S <$> strings_Index s' substr
       end.

(** [strings.Contains(s, substr)] is [Index(s, substr) >= 0]. *)
Definition strings_Contains (s substr : string) : bool :=
  match strings_Index s substr with
  | Some _ => true
  | None => false
  end.

(** [strings.Repeat(s, count)]. *)
Fixpoint strings_Repeat (s : string) (count : nat) : string :=
  match count with
  | 0 => ""
  | S n => s +:+ strings_Repeat s n
  end.

(** ** package unicode/utf8 *)

(** The continuation-byte range a leading byte expects of the byte that
    follows it ([acceptRanges] in utf8.go). *)
Definition accepts_second (b0 b1 : N) : bool :=
  (if b0 =? 0xE0 then 0xA0 <=? b1 else
   if b0 =? 0xF0 then 0x90 <=? b1 else 0x80 <=? b1)%N
  &&
  (if b0 =? 0xED then b1 <=? 0x9F else
   if b0 =? 0xF4 then b1 <=? 0x8F else b1 <=? 0xBF)%N.

Definition is_continuation (b : N) : bool := ((0x80 <=? b) && (b <=? 0xBF))%N.

(** The width in bytes that [utf8.DecodeRuneInString] reports: 0 for the
    empty string, 1 for an ASCII byte and for a byte that does not start a
    well-formed encoding ([RuneError], width 1), and 2 to 4 for a well-formed
    multi-byte encoding. *)
Definition utf8_DecodeRuneInString_size (s : string) : nat :=
  match s with
  | "" => 0
  | String c0 t =>
      let b0 := byte c0 in
      if (b0 <? 0xC2)%N || (0xF4 <? b0)%N then 1
      else match t with
           | "" => 1
           | String c1 t1 =>
               if negb (accepts_second b0 (byte c1)) then 1
               else if (b0 <? 0xE0)%N then 2
               else match t1 with
                    | "" => 1
                    | String c2 t2 =>
                        if negb (is_continuation (byte c2)) then 1
                        else if (b0 <? 0xF0)%N then 3
                        else match t2 with
                             | "" => 1
                             | String c3 _ =>
                                 if is_continuation (byte c3) then 4 else 1
                             end
                    end
           end
  end.

(** [utf8.RuneCountInString(s)]: the number of runes [s] decodes to.  Every
    step consumes at least one byte, so [len(s)] steps are enough. *)
Fixpoint RuneCount_loop (fuel : nat) (s : string) : nat :=
  match fuel, s with
  | S fuel', String _ _ =>
      S (RuneCount_loop fuel' (slice_from (utf8_DecodeRuneInString_size s) s))
  | _, _ => 0
  end.

Definition utf8_RuneCountInString (s : string) : nat :=
  RuneCount_loop (String.length s) s.

(** ** strings.Split *)

(** [strings.Count(s, substr)] for a non-empty [substr]: the number of
    non-overlapping instances; for the empty [substr] it is the rune count
    plus one. *)
Fixpoint Count_loop (fuel : nat) (s substr : string) : nat :=
  match fuel with
  | 0 => 0
  | S fuel' =>
      match strings_Index s substr with
      | None => 0
      | Some i =>
          S (Count_loop fuel' (slice_from (i + String.length substr) s) substr)
      end
  end.

Definition strings_Count (s substr : string) : nat :=
  match substr with
  | "" => utf8_RuneCountInString s + 1
  | _ => Count_loop (String.length s) s substr
  end.

(** [explode(s, -1)]: one piece per UTF-8 sequence.
<<
    l := utf8.RuneCountInString(s)
    a := make([]string, l)
    for i := 0; i < l-1; i++ {
        _, size := utf8.DecodeRuneInString(s); a[i] = s[:size]; s = s[size:]
    }
    if l > 0 { a[l-1] = s }
>> *)
Fixpoint explode_loop (k : nat) (s : string) : list string :=
  match k with
  | 0 => [s]
  | S k' =>
      let size := utf8_DecodeRuneInString_size s in
      slice_to size s :: explode_loop k' (slice_from size s)
  end.

Definition explode (s : string) : list string :=
  match utf8_RuneCountInString s with
  | 0 => []
  | S k => explode_loop k s
  end.

(** The loop of [genSplit(s, sep, 0, n)]; [k] is the number of iterations
    left, the loop also stops when [sep] is no longer found, and the
    remainder is the last piece. *)
Fixpoint genSplit_loop (k : nat) (s sep : string) : list string :=
  match k with
  | 0 => [s]
  | S k' =>
      match strings_Index s sep with
      | None => [s]
      | Some m =>
          slice_to m s :: genSplit_loop k' (slice_from (m + String.length sep) s) sep
      end
  end.

(** [strings.Split(s, sep)] is [genSplit(s, sep, 0, -1)]. *)
Definition strings_Split (s sep : string) : list string :=
  match sep with
  | "" => explode s
  | _ =>
      let n := Nat.min (strings_Count s sep + 1) (String.length s + 1) in
      genSplit_loop (n - 1) s sep
  end.

(** ** The review record and the rating decoder *)

(** A [time.Time] is an instant.  Every instant the program builds comes out
    of [time.Parse] under a date-only layout, so it is midnight UTC of some
    day and a whole number of seconds; the program reads it back through
    [Unix()] and [Format("2006-01-02")].  An instant is modelled by its Unix
    second count. *)
Record Time := mkTime { Unix : Z }.

#[global] Instance Time_eq_dec : EqDecision Time.
Proof. solve_decision. Defined.

Record Review := mkReview {
  Id : Z;
  Author : string;
  Title : string;
  Message : string;
  Rate : string;
  UpdatedAt : Time;
  Permalink : string;
  Color : string
}.

Abbreviation Reviews := (list Review).

Definition RATING_EMOJI : string := ":star:".
Definition RATING_EMOJI_2 : string := ":star2:".
Definition BASE_URI : string := "https://play.google.com".
Definition MAX_REVIEW_NUM : Z := 40.

Definition parseRate (message : string) : string :=
  if strings_Contains message "width: 20%" then strings_Repeat RATING_EMOJI 1
  else if strings_Contains message "width: 40%" then strings_Repeat RATING_EMOJI 2
  else if strings_Contains message "width: 60%" then strings_Repeat RATING_EMOJI 3
  else if strings_Contains message "width: 80%" then strings_Repeat RATING_EMOJI 4
  else if strings_Contains message "width: 100%" then strings_Repeat RATING_EMOJI_2 5
  else "".

(** ** package time *)

Definition isLeap (year : Z) : bool :=
  ((year mod 4 =? 0) && (negb (year mod 100 =? 0) || (year mod 400 =? 0)))%Z.

(** [daysBefore[m]]: the days of a non-leap year before month [m + 1]. *)
Definition daysBefore (m : Z) : Z :=
  nth (Z.to_nat m) [0; 31; 59; 90; 120; 151; 181; 212; 243; 273; 304; 334; 365]%Z 0%Z.

Definition daysIn (month year : Z) : Z :=
  if ((month =? 2) && isLeap year)%Z then 29%Z
  else (daysBefore month - daysBefore (month - 1))%Z.

(** [time.Date(year, month, day, 0, 0, 0, 0, time.UTC)] for a month in 1..12
    and a day of that month: the days since 0001-01-01 of the proleptic
    Gregorian calendar, moved to the Unix epoch (day 719162) and counted in
    seconds. *)
Definition time_Date (year month day : Z) : Time :=
  let y := (year - 1)%Z in
  let d := (365 * y + y / 4 - y / 100 + y / 400
            + daysBefore (month - 1)
            + (if isLeap year && (3 <=? month)%Z then 1 else 0)
            + (day - 1))%Z in
  mkTime ((d - 719162) * 86400).

(** [absDate]: the civil date of an instant, by the 400, 100, 4 and 1 year
    cycles counted from 0001-01-01. *)
Definition absDate (t : Time) : Z * Z * Z :=
  let d := (Unix t / 86400 + 719162)%Z in
  let n400 := (d / 146097)%Z in
  let d := (d - 146097 * n400)%Z in
  let n100 := (d / 36524)%Z in
  let n100 := (n100 - n100 / 4)%Z in
  let d := (d - 36524 * n100)%Z in
  let n4 := (d / 1461)%Z in
  let d := (d - 1461 * n4)%Z in
  let n1 := (d / 365)%Z in
  let n1 := (n1 - n1 / 4)%Z in
  let d := (d - 365 * n1)%Z in
  let year := (400 * n400 + 100 * n100 + 4 * n4 + n1 + 1)%Z in
  if (isLeap year && (d =? 31 + 29 - 1))%Z then (year, 2, 29)%Z
  else
    let day := (if isLeap year && (31 + 29 - 1 <? d) then d - 1 else d)%Z in
    let month := (day / 31)%Z in
    let end_ := daysBefore (month + 1) in
    if (end_ <=? day)%Z then (year, month + 2, day - end_ + 1)%Z
    else (year, month + 1, day - daysBefore month + 1)%Z.

(** [appendInt(b, x, width)]: decimal, zero-padded to [width] digits. *)
Fixpoint decimal_loop (fuel : nat) (u : Z) (acc : string) : string :=
  match fuel with
  | 0 => acc
  | S fuel' =>
      let acc' := String (ascii_of_N (48 + Z.to_N (u mod 10))) acc in
      if (u <? 10)%Z then acc' else decimal_loop fuel' (u / 10) acc'
  end.

Definition appendInt (x : Z) (width : nat) : string :=
  let digits := decimal_loop (S (Z.to_nat (Z.abs x))) (Z.abs x) "" in
  (if (x <? 0)%Z then "-" else "")
  +:+ strings_Repeat "0" (width - String.length digits) +:+ digits.

(** [t.Format("2006-01-02")]. *)
Definition Format_2006_01_02 (t : Time) : string :=
  let '(year, month, day) := absDate t in
  appendInt year 4 +:+ "-" +:+ appendInt month 2 +:+ "-" +:+ appendInt day 2.

(** The elements of the reference time that occur in the layouts of this
    program. *)
Inductive std := stdLongMonth | stdNumMonth | stdDay | stdLongYear.

(** [nextStdChunk(layout)]: the text before the first reference-time element
    of the layout, that element, and the text after it.  The scan is written
    for the elements [January], [1], [2] and [2006]; the layouts of this
    program contain none of the characters that start the other elements of
    Go's reference time (Mon, 01, 15, 3, 4, 5, PM, -07, Z07, _2, .000). *)
Fixpoint nextStdChunk (layout : string) : string * option std * string :=
  match layout with
  | "" => ("", None, "")
  | String c rest =>
      if Ascii.eqb c "J" && strings_HasPrefix layout "January"
      then ("", Some stdLongMonth, slice_from 7 layout)
      else if Ascii.eqb c "1" && negb (strings_HasPrefix rest "5")
      then ("", Some stdNumMonth, rest)
      else if Ascii.eqb c "2"
      then if strings_HasPrefix layout "2006"
           then ("", Some stdLongYear, slice_from 4 layout)
           else ("", Some stdDay, rest)
      else let '(prefix, s, suffix) := nextStdChunk rest in
           (String c prefix, s, suffix)
  end.

Definition isDigit (s : string) (i : nat) : bool :=
  match String.get i s with
  | Some c => ((48 <=? byte c) && (byte c <=? 57))%N
  | None => false
  end.

Definition digit_value (c : ascii) : Z := Z.of_N (byte c) - 48.

(** [getnum(s, false)]: one or two leading digits. *)
Definition getnum (s : string) : option (Z * string) :=
  if negb (isDigit s 0) then None
  else match s with
       | String c0 (String c1 s2) =>
           if isDigit s 1
           then Some (digit_value c0 * 10 + digit_value c1, s2)%Z
           else Some (digit_value c0, String c1 s2)
       | String c0 s1 => Some (digit_value c0, s1)
       | "" => None
       end.

(** [leadingInt] and [atoi] of format.go (the overflow guard of [leadingInt]
    is beyond the four digits [atoi] is given here). *)
Fixpoint leadingInt (s : string) (x : Z) : Z * string :=
  match s with
  | String c s' =>
      if ((48 <=? byte c) && (byte c <=? 57))%N
      then leadingInt s' (x * 10 + digit_value c)%Z
      else (x, s)
  | "" => (x, "")
  end.

Definition atoi (s : string) : option Z :=
  let '(neg, s) :=
    match s with
    | String c s' =>
        if Ascii.eqb c "-" then (true, s')
        else if Ascii.eqb c "+" then (false, s')
        else (false, s)
    | "" => (false, s)
    end in
  let '(q, rem) := leadingInt s 0 in
  match rem with
  | "" => Some (if neg : bool then - q else q)%Z
  | _ => None
  end.

Fixpoint cutspace (s : string) : string :=
  match s with
  | String c s' => if Ascii.eqb c " " then cutspace s' else s
  | "" => ""
  end.

(** [skip(value, prefix)]: [value] without the literal text [prefix], where a
    run of spaces in [prefix] matches any run of spaces, also none.  Every
    step shortens [prefix], so [len(prefix)] steps are enough. *)
Fixpoint skip_loop (fuel : nat) (value prefix : string) : option string :=
  match prefix with
  | "" => Some value
  | String p prefix' =>
      match fuel with
      | 0 => None
      | S fuel' =>
          if Ascii.eqb p " "
          then match value with
               | String v _ =>
                   if negb (Ascii.eqb v " ") then None
                   else skip_loop fuel' (cutspace value) (cutspace prefix)
               | "" => skip_loop fuel' (cutspace value) (cutspace prefix)
               end
          else match value with
               | String v value' =>
                   if Ascii.eqb v p then skip_loop fuel' value' prefix' else None
               | "" => None
               end
      end
  end.

Definition skip (value prefix : string) : option string :=
  skip_loop (String.length prefix) value prefix.

(** [match(s1, s2)]: equality of two strings of one length up to the case of
    ASCII letters. *)
Fixpoint match_fold (s1 s2 : string) : bool :=
  match s1, s2 with
  | String c1 r1, String c2 r2 =>
      (if Ascii.eqb c1 c2 then true
       else let l1 := N.lor (byte c1) 32 in
            let l2 := N.lor (byte c2) 32 in
            (l1 =? l2)%N && (97 <=? l1)%N && (l1 <=? 122)%N)
      && match_fold r1 r2
  | "", _ => true
  | String _ _, "" => false
  end.

Definition longMonthNames : list string :=
  ["January"; "February"; "March"; "April"; "May"; "June"; "July";
   "August"; "September"; "October"; "November"; "December"].

(** [lookup(tab, val)]: the index of the first name of [tab] that [val]
    starts with, and the rest of [val]. *)
Fixpoint lookup_from (i : Z) (tab : list string) (val : string)
  : option (Z * string) :=
  match tab with
  | [] => None
  | v :: tab' =>
      if (String.length v <=? String.length val)%nat
         && match_fold (slice_to (String.length v) val) v
      then Some (i, slice_from (String.length v) val)
      else lookup_from (i + 1) tab' val
  end.

(** The loop of [parse]: one reference-time element per iteration; the year,
    month and day read so far are carried along ([-1]: not read). *)
Fixpoint parse_loop (fuel : nat) (layout value : string) (year month day : Z)
  : option (Z * Z * Z) :=
  let '(prefix, s, suffix) := nextStdChunk layout in
  value ← skip value prefix;
  match s with
  | None => if String.eqb value "" then Some (year, month, day) else None
  | Some s =>
      match fuel with
      | 0 => None
      | S fuel' =>
          match s with
          | stdLongYear =>
              if (String.length value <? 4)%nat || negb (isDigit value 0) then None
              else year ← atoi (slice_to 4 value);
                   parse_loop fuel' suffix (slice_from 4 value) year month day
          | stdLongMonth =>
              '(i, value) ← lookup_from 0 longMonthNames value;
              parse_loop fuel' suffix value year (i + 1)%Z day
          | stdNumMonth =>
              '(m, value) ← getnum value;
              if ((m <=? 0) || (12 <? m))%Z then None
              else parse_loop fuel' suffix value year m day
          | stdDay =>
              '(d, value) ← getnum value;
              parse_loop fuel' suffix value year month d
          end
      end
  end.

(** [time.Parse(layout, value)]; [None] stands for a [*ParseError].  A month
    or day the layout does not ask for is January and the 1st; the day must
    exist in its month. *)
Definition time_Parse (layout value : string) : option Time :=
  '(year, month, day) ← parse_loop (String.length layout) layout value 0 (-1) (-1);
  let month := (if month <? 0 then 1 else month)%Z in
  let day := (if day <? 0 then 1 else day)%Z in
  if ((day <? 1) || (daysIn month year <? day))%Z then None
  else Some (time_Date year month day).

(** ** Panics and errors *)

(** A Go [error] value is modelled by its message; [None] is [nil]. *)
Definition error := string.

(** A call either returns or panics (index out of range, nil dereference);
    a panic is not recovered anywhere in the program and ends the run. *)
Inductive run (A : Type) : Type :=
  | Done (a : A)
  | Panic (msg : string).
Arguments Done {A} a.
Arguments Panic {A} msg.

#[global] Instance run_ret : MRet run := fun A a => Done a.
#[global] Instance run_bind : MBind run := fun A B f m =>
  match m with
  | Done a => f a
  | Panic msg => Panic msg
  end.

(** [s[i]] on a slice. *)
Definition index {A} (s : list A) (i : nat) : run A :=
  match s !! i with
  | Some a => Done a
  | None => Panic "index out of range"
  end.

(** ** package sort *)

Class sort_Interface (T : Type) := {
  Len : T -> nat;
  Less : T -> nat -> nat -> run bool;
  Swap : T -> nat -> nat -> run T
}.

(** The three methods of [Reviews]. *)
Definition Reviews_Len (r : Reviews) : nat := length r.

Definition Reviews_Swap (r : Reviews) (i j : nat) : run Reviews :=
  ri ← index r i;
  rj ← index r j;
  mret (<[j:=ri]> (<[i:=rj]> r)).

Definition Reviews_Less (r : Reviews) (i j : nat) : run bool :=
  ri ← index r i;
  rj ← index r j;
  mret (Unix (UpdatedAt rj) <? Unix (UpdatedAt ri))%Z.

#[global] Instance Reviews_Interface : sort_Interface Reviews :=
  {| Len := Reviews_Len; Less := Reviews_Less; Swap := Reviews_Swap |}.

(** [insertionSort(data, a, b)] of sort.go:
<<
    for i := a + 1; i < b; i++ {
        for j := i; j > a && data.Less(j, j-1); j-- { data.Swap(j, j-1) }
    }
>> *)
Fixpoint insertionSort_inner `{sort_Interface T} (data : T) (a j : nat) : run T :=
  match j with
  | 0 => Done data
  | S j' =>
      if (a <? j)%nat then
        less ← Less data j j';
        if less : bool then data ← Swap data j j'; insertionSort_inner data a j'
        else Done data
      else Done data
  end.

Fixpoint insertionSort_outer `{sort_Interface T} (n : nat) (data : T) (a i : nat)
  : run T :=
  match n with
  | 0 => Done data
  | S n' => data ← insertionSort_inner data a i; insertionSort_outer n' data a (S i)
  end.

Definition insertionSort `{sort_Interface T} (data : T) (a b : nat) : run T :=
  insertionSort_outer (b - (a + 1)) data a (a + 1).

(** [sort.Sort(data)] orders [data] by [Less]; it is not stable.  On short
    slices (at most 12 elements in current Go) it is [insertionSort]; on
    longer ones Go switches to a quicksort variant, whose result may differ
    from the one below only in the order of elements that [Less] leaves
    unordered. *)
Definition sort_Sort `{sort_Interface T} (data : T) : run T :=
  insertionSort data 0 (Len data).

(** ** Configuration, page and payload *)

Record Config := mkConfig {
  AppId : string;
  ReviewCount : Z;
  BotName : string;
  IconEmoji : string;
  MessageText : string;
  WebHookUri : string;
  Location : string
}.

(** One [.single-review] block of the fetched page, by what the selections of
    [GetReview] read from it: the text of a sub-node ([""] when the node is
    absent) and the value of an attribute ([None] when it is absent). *)
Record Selection := mkSelection {
  AUTHOR_NAME_text : string;
  REVIEW_DATE_text : string;
  REVIEW_PERMALINK_href : option string;
  REVIEW_TITLE_text : string;
  REVIEW_MESSAGE_text : string;
  REVIEW_LINK_text : string;
  REVIEW_RATE_style : option string
}.

Record SlackAttachmentField := mkField {
  field_Title : string;
  field_Value : string;
  field_Short : bool
}.

Record SlackAttachment := mkAttachment {
  att_Author : string;
  att_AuthorLink : string;
  att_Title : string;
  att_TitleLink : string;
  att_Text : string;
  att_Fallback : string;
  att_Color : string;
  att_Fields : list SlackAttachmentField
}.

Record SlackPayload := mkPayload {
  payload_Text : string;
  payload_UserName : string;
  payload_IconEmoji : string;
  payload_Attachments : list SlackAttachment
}.

(** What the program reaches outside itself: the configuration file, the
    process environment, the database driver when connecting, and the HTTP
    client.  The JSON document of a webhook request is modelled by the
    [SlackPayload] it encodes ([json.Marshal] does not fail on it). *)
Record Env := mkEnv {
  ioutil_ReadFile : string -> string + error;
  yaml_Unmarshal : string -> Config * option error;
  os_Getenv : string -> string;
  pq_ParseURL : string -> string;
  sql_Open : string -> option error;
  db_Ping : option error;
  http_Get : string -> Z + error;
  goquery_NewDocument : string -> list Selection + error;
  http_NewRequest : string -> bool;
  client_Do : string -> SlackPayload -> option error
}.

(** ** NewConfig *)

Definition Config_zero : Config := mkConfig "" 0 "" "" "" "" "".

Definition set_BotName (v : string) (c : Config) : Config :=
  mkConfig (AppId c) (ReviewCount c) v (IconEmoji c) (MessageText c) (WebHookUri c) (Location c).
Definition set_AppId (v : string) (c : Config) : Config :=
  mkConfig v (ReviewCount c) (BotName c) (IconEmoji c) (MessageText c) (WebHookUri c) (Location c).
Definition set_WebHookUri (v : string) (c : Config) : Config :=
  mkConfig (AppId c) (ReviewCount c) (BotName c) (IconEmoji c) (MessageText c) v (Location c).
Definition set_Location (v : string) (c : Config) : Config :=
  mkConfig (AppId c) (ReviewCount c) (BotName c) (IconEmoji c) (MessageText c) (WebHookUri c) v.

(** [NewConfig(path)]: the configuration and the error it returns. *)
Definition NewConfig (env : Env) (path : string) : Config * option error :=
  let config := Config_zero in
  match ioutil_ReadFile env path with
  | inr err => (config, Some err)
  | inl data =>
      match yaml_Unmarshal env data with
      | (config, Some err) => (config, Some err)
      | (config, None) =>
          if ((MAX_REVIEW_NUM <? ReviewCount config) || (ReviewCount config <? 1))%Z
          then (config, Some "Please Set Num Between 1 and 40.")
          else
            let url := os_Getenv env "DATABASE_URL" in
            let connection := pq_ParseURL env url +:+ " sslmode=require" in
            match sql_Open env connection with
            | Some err => (config, Some err)
            | None =>
                match db_Ping env with
                | Some err => (config, Some err)
                | None =>
                    let botName := os_Getenv env "JON_SNOW_BOT_NAME" in
                    let config :=
                      if negb (String.eqb botName "") then set_BotName botName config
                      else config in
                    let appId := os_Getenv env "JON_SNOW_APP_ID" in
                    let config :=
                      if negb (String.eqb appId "") then set_AppId appId config
                      else config in
                    let webHookUri := os_Getenv env "JON_SNOW_SLACK_HOOK" in
                    let config :=
                      if negb (String.eqb webHookUri "") then set_WebHookUri webHookUri config
                      else config in
                    let location := os_Getenv env "JON_SNOW_LOCATION" in
                    let config :=
                      if negb (String.eqb location "") then set_Location location config
                      else config in
                    if String.eqb (AppId config) ""
                    then (config, Some "Please Set Your Google Play App Id.")
                    else
                      let uri := BASE_URI +:+ "/store/apps/details?id=" +:+ AppId config in
                      match http_Get env uri with
                      | inr err => (config, Some err)
                      | inl StatusCode =>
                          if (StatusCode =? 404)%Z
                          then (config, Some ("AppID: " +:+ AppId config +:+ " is not exists"))
                          else (config, None)
                      end
                end
            end
      end
  end.

(** ** GetReview *)

(** The layout [GetReview] selects for the configured locale; the variable
    is declared without a value, so it is the empty string for any other
    locale. *)
Definition timeForm (config : Config) : string :=
  if String.eqb (Location config) "zh-tw" then "2006年1月2日"
  else if String.eqb (Location config) "en" then "January 2, 2006"
  else "".

(** The body of the [Each] callback on one block [s], with the slice
    [reviews] it appends to: a block whose date does not parse leaves the
    slice as it is. *)
Definition GetReview_each (config : Config) (s : Selection) (reviews : Reviews)
  : run Reviews :=
  let authorName := AUTHOR_NAME_text s in
  match time_Parse (timeForm config) (REVIEW_DATE_text s) with
  | None => Done reviews
  | Some date =>
      let reviewPermalink := default "" (REVIEW_PERMALINK_href s) in
      let reviewTitle := REVIEW_TITLE_text s in
      let reviewTitle :=
        if (String.length reviewTitle =? 0)%nat then "No title provided"
        else reviewTitle in
      let reviewMessage := REVIEW_MESSAGE_text s in
      let reviewLink := REVIEW_LINK_text s in
      reviewMessage ← index (strings_Split reviewMessage reviewLink) 0;
      let rateMessage := default "" (REVIEW_RATE_style s) in
      let rate := parseRate rateMessage in
      let review := {|
        Id := 0;
        Author := authorName;
        Title := reviewTitle;
        Message := reviewMessage;
        Rate := rate;
        UpdatedAt := date;
        Permalink := reviewPermalink;
        Color := "" |} in
      Done (reviews ++ [review])%list
  end.

Fixpoint GetReview_Each (config : Config) (doc : list Selection) (reviews : Reviews)
  : run Reviews :=
  match doc with
  | [] => Done reviews
  | s :: doc' =>
      reviews ← GetReview_each config s reviews;
      GetReview_Each config doc' reviews
  end.

(** The part of [GetReview] after the page is fetched. *)
Definition GetReview_parse (config : Config) (doc : list Selection) : run Reviews :=
  reviews ← GetReview_Each config doc [];
  sort_Sort reviews.


(** ** The review table and SaveReviews *)

(** Modelled from the spec: the declaration of the table [review], which is
    not part of the source.  It is a table keyed by an internal id, with a
    [comment_uri] column for the permalink and [author] and [updated_at]
    columns, as the two SQL statements of [SaveReviews] name them.  The id is
    the serial key of the table; a serial starts at 1, so an id is a
    [positive]. *)
Record Row := mkRow {
  row_id : positive;
  row_author : string;
  row_comment_uri : string;
  row_updated_at : Time
}.

(** The database as [SaveReviews] meets it: the rows of the table in
    insertion order, the next value of the serial, and the outcome the
    driver has in store for the calls to come -- [Some e] for a call that
    fails with error [e], [None] (or nothing left) for a call that goes
    through. *)
Record DB := mkDB {
  rows : list Row;
  serial : positive;
  faults : list (option error)
}.

Definition ErrNoRows : error := "sql: no rows in result set".

(** The next driver outcome, and the database after it is used up. *)
Definition next_fault (db : DB) : option error * DB :=
  match faults db with
  | [] => (None, db)
  | f :: fs => (f, mkDB (rows db) (serial db) fs)
  end.

(** [row := dbh.QueryRow("SELECT id FROM review WHERE comment_uri = $1", uri)]
    followed by [err := row.Scan(&id)] on [id = 0]: the value of [id] and
    [err] afterwards.  [Scan] reads the first selected row, and reports
    [ErrNoRows] when there is none. *)
Definition QueryRow_Scan (uri : string) (db : DB) : DB * (Z * option error) :=
  match next_fault db with
  | (Some e, db) => (db, (0%Z, Some e))
  | (None, db) =>
      match List.find (fun r => String.eqb (row_comment_uri r) uri) (rows db) with
      | Some r => (db, (Z.pos (row_id r), None))
      | None => (db, (0%Z, Some ErrNoRows))
      end
  end.

(** [dbh.Exec("INSERT INTO review (author, comment_uri, updated_at)
    VALUES ($1, $2, $3)", ...)]. *)
Definition Exec_INSERT (author uri : string) (updated_at : Time) (db : DB)
  : DB * option error :=
  match next_fault db with
  | (Some e, db) => (db, Some e)
  | (None, db) =>
      (mkDB (rows db ++ [mkRow (serial db) author uri updated_at])%list
            (Pos.succ (serial db)) (faults db), None)
  end.

(** The second half of the body of the loop of [SaveReviews], on the [id]
    the lookup has left:
<<
    if id == 0 {
        _, err := dbh.Exec("INSERT ...", review.Author, review.Permalink, review.UpdatedAt)
        if err != nil { return postReviews, err }
        postReviews = append(postReviews, review)
    }
>> *)
Definition SaveReviews_insert (review : Review) (postReviews : Reviews) (id : Z)
    (db : DB) : DB * (Reviews * option error) :=
  if (id =? 0)%Z then
    match Exec_INSERT (Author review) (Permalink review) (UpdatedAt review) db with
    | (db, Some e) => (db, (postReviews, Some e))
    | (db, None) => (db, (postReviews ++ [review], None))
    end
  else (db, (postReviews, None)).

(** The body of the loop of [SaveReviews] on one review: the slice
    [postReviews] afterwards, and the error the function returns with, if it
    returns here.
<<
    if err != nil {
        if err.Error() != "sql: no rows in result set" { return postReviews, err }
    }
>> *)
Definition SaveReviews_body (review : Review) (postReviews : Reviews) (db : DB)
  : DB * (Reviews * option error) :=
  let '(db, (id, err)) := QueryRow_Scan (Permalink review) db in
  match err with
  | Some e =>
      if negb (String.eqb e ErrNoRows) then (db, (postReviews, Some e))
      else SaveReviews_insert review postReviews id db
  | None => SaveReviews_insert review postReviews id db
  end.

Fixpoint SaveReviews_loop (reviews postReviews : Reviews) (db : DB)
  : DB * (Reviews * option error) :=
  match reviews with
  | [] => (db, (postReviews, None))
  | review :: reviews' =>
      match SaveReviews_body review postReviews db with
      | (db, (postReviews, Some e)) => (db, (postReviews, Some e))
      | (db, (postReviews, None)) => SaveReviews_loop reviews' postReviews db
      end
  end.

Definition SaveReviews (reviews : Reviews) (db : DB) : DB * (Reviews * option error) :=
  SaveReviews_loop reviews [] db.

(** The identity record [SaveReviews] inserts for a review, under the id the
    table gives it. *)
Definition identity_record (id : positive) (review : Review) : Row :=
  mkRow id (Author review) (Permalink review) (UpdatedAt review).

(** ** PostReview *)





(** ** main *)


(** ** Vocabulary of the properties *)

(** [substr] occurs in [s] as a literal substring. *)
Definition occurs_in (substr s : string) : Prop :=
  exists p q, s = p +:+ substr +:+ q.

(** [msg] is [body] cut off where [sep] first occurs in it, and all of
    [body] when [sep] does not occur. *)
Definition cut_at_first (sep body msg : string) : Prop :=
  (exists rest, body = msg +:+ sep +:+ rest
                /\ forall p q, body = p +:+ sep +:+ q -> String.length msg <= String.length p)
  \/ (~ occurs_in sep body /\ msg = body).

(** The first UTF-8 sequence of [s], and all of them in order. *)
Definition first_rune (s : string) : string :=
  slice_to (utf8_DecodeRuneInString_size s) s.

Fixpoint runes_loop (fuel : nat) (s : string) : list string :=
  match fuel, s with
  | S fuel', String _ _ =>
      first_rune s :: runes_loop fuel' (slice_from (utf8_DecodeRuneInString_size s) s)
  | _, _ => []
  end.

Definition runes (s : string) : list string := runes_loop (String.length s) s.

(** The order of [Reviews.Less] on two reviews: [a] goes before [b] when it
    is more recent. *)
Definition more_recent (a b : Review) : bool :=
  (Unix (UpdatedAt b) <? Unix (UpdatedAt a))%Z.

(** Insertion sort as a function on lists.  [insert_rev x q] is the inner
    loop seen from the right end of the sorted part: [q] is that part from
    right to left, and [x] moves past the elements it is more recent than. *)
Fixpoint insert_rev (x : Review) (q : Reviews) : Reviews :=
  match q with
  | [] => [x]
  | y :: q' => if more_recent x y then y :: insert_rev x q' else x :: q
  end.

Definition insert_sorted (p : Reviews) (x : Review) : Reviews :=
  reverse (insert_rev x (reverse p)).

Definition isort (l : Reviews) : Reviews := fold_left insert_sorted l [].

Definition Time_le (t u : Time) : Prop := (Unix t <= Unix u)%Z.

Definition descending (l : Reviews) : Prop :=
  StronglySorted (fun a b => Time_le (UpdatedAt b) (UpdatedAt a)) l.


(** The permalinks on record. *)
Definition permalinks (db : DB) : list string := row_comment_uri <$> rows db.

(** Every call to the store goes through. *)
Definition fault_free (db : DB) : Prop := Forall (fun f => f = None) (faults db).

(** No failure of the driver is worded like [ErrNoRows]: database/sql keeps
    that text for a query that selected no row. *)
Definition no_rows_reserved (db : DB) : Prop :=
  Forall (fun f => f <> Some ErrNoRows) (faults db).

(** The identity records of a sequence of reviews, under consecutive ids. *)
Fixpoint identity_records (id : positive) (reviews : Reviews) : list Row :=
  match reviews with
  | [] => []
  | review :: reviews' =>
      identity_record id review :: identity_records (Pos.succ id) reviews'
  end.

(** The dedup pass as the specification words it, on the permalinks [seen]
    so far: a candidate whose permalink is on record is left out, any other
    one is recorded and kept. *)
Fixpoint filterNew (seen : list string) (candidates : Reviews) : Reviews :=
  match candidates with
  | [] => []
  | review :: candidates' =>
      if decide (Permalink review ∈ seen) then filterNew seen candidates'
      else review :: filterNew (seen ++ [Permalink review]) candidates'
  end.

(** An option under its environment variable: a non-empty value of the
    variable, else the value of the file. *)
Definition overridden (value fileValue : string) : string :=
  if String.eqb value "" then fileValue else value.

(** The date text of a block parses under the layout of the locale. *)
Definition date_parses (config : Config) (s : Selection) : bool :=
  match time_Parse (timeForm config) (REVIEW_DATE_text s) with
  | Some _ => true
  | None => false
  end.

(** The six ratings. *)
Definition ratings : list string :=
  [ ""; ":star:"; ":star::star:"; ":star::star::star:";
    ":star::star::star::star:"; ":star2::star2::star2::star2::star2:" ].

(** [r] is the review [GetReview] builds from the block [s]. *)
Definition review_from (config : Config) (s : Selection) (r : Review) : Prop :=
  Author r = AUTHOR_NAME_text s
  /\ time_Parse (timeForm config) (REVIEW_DATE_text s) = Some (UpdatedAt r)
  /\ Permalink r = default "" (REVIEW_PERMALINK_href s)
  /\ Title r = (if decide (REVIEW_TITLE_text s = "") then "No title provided"
                else REVIEW_TITLE_text s)
  /\ strings_Split (REVIEW_MESSAGE_text s) (REVIEW_LINK_text s) !! 0 = Some (Message r)
  /\ Rate r = parseRate (default "" (REVIEW_RATE_style s)).

(** ** Sample data *)

(** A configuration for the English storefront, and a review block. *)
Definition config_en : Config :=
  mkConfig "com.example.app" 2 "JonSnow" ":snowman:" "New reviews"
    "https://hooks.example/T0" "en".

Definition block_read_more : Selection := {|
  AUTHOR_NAME_text := "Arya";
  REVIEW_DATE_text := "March 7, 2015";
  REVIEW_PERMALINK_href := Some "/r/1";
  REVIEW_TITLE_text := "";
  REVIEW_MESSAGE_text := "Great app! Read more";
  REVIEW_LINK_text := "Read more";
  REVIEW_RATE_style := Some "width: 80%;"
|}.

(** The same block without its link control, with and without body text. *)
Definition block_no_link : Selection := {|
  AUTHOR_NAME_text := "Arya";
  REVIEW_DATE_text := "March 7, 2015";
  REVIEW_PERMALINK_href := Some "/r/1";
  REVIEW_TITLE_text := "";
  REVIEW_MESSAGE_text := "Great app!";
  REVIEW_LINK_text := "";
  REVIEW_RATE_style := Some "width: 80%;"
|}.

Definition block_no_link_no_body : Selection := {|
  AUTHOR_NAME_text := "Arya";
  REVIEW_DATE_text := "March 7, 2015";
  REVIEW_PERMALINK_href := Some "/r/1";
  REVIEW_TITLE_text := "";
  REVIEW_MESSAGE_text := "";
  REVIEW_LINK_text := "";
  REVIEW_RATE_style := Some "width: 80%;"
|}.

(** A configuration for a locale [GetReview] has no layout for, and a block
    without date text. *)
Definition config_fr : Config :=
  mkConfig "com.example.app" 2 "JonSnow" ":snowman:" "New reviews"
    "https://hooks.example/T0" "fr".

Definition block_no_date : Selection := {|
  AUTHOR_NAME_text := "Arya";
  REVIEW_DATE_text := "";
  REVIEW_PERMALINK_href := Some "/r/1";
  REVIEW_TITLE_text := "";
  REVIEW_MESSAGE_text := "Great app! Read more";
  REVIEW_LINK_text := "Read more";
  REVIEW_RATE_style := Some "width: 80%;"
|}.

(** Sample reviews, by permalink, author and the instant of their date. *)
Definition sample_review (permalink author : string) (unix : Z) : Review := {|
  Id := 0;
  Author := author;
  Title := "No title provided";
  Message := "Great app! ";
  Rate := ":star::star::star::star:";
  UpdatedAt := mkTime unix;
  Permalink := permalink;
  Color := ""
|}.

Definition review_1 : Review := sample_review "/r/1" "Arya" 1425686400.
Definition review_2 : Review := sample_review "/r/2" "Bran" 1425600000.
Definition review_3 : Review := sample_review "/r/3" "Sansa" 1425513600.

(** An empty table, as it is and with a driver that fails on the third and
    on the fourth call. *)
Definition db_empty : DB := mkDB [] 1 [].

Definition db_lookup_fails : DB :=
  mkDB [] 1 [None; None; Some "pq: connection reset"].

Definition db_insert_fails : DB :=
  mkDB [] 1 [None; None; None; Some "pq: disk full"].

(** A second review under the permalink of [review_1]. *)
Definition review_1_again : Review := sample_review "/r/1" "Jon" 1425772800.

(** Surroundings in which every file, connection and request goes through,
    the configuration file holds [config_en], and every environment variable
    holds [value]. *)
Definition env_all_set (value : string) : Env := {|
  ioutil_ReadFile := fun _ => inl "app_id: com.example.app";
  yaml_Unmarshal := fun _ => (config_en, None);
  os_Getenv := fun _ => value;
  pq_ParseURL := fun url => url;
  sql_Open := fun _ => None;
  db_Ping := None;
  http_Get := fun _ => inl 200%Z;
  goquery_NewDocument := fun _ => inl [];
  http_NewRequest := fun _ => true;
  client_Do := fun _ _ => None
|}.

(** An older review block, and surroundings like [env_all_set ""] whose
    storefront page holds the older block followed by [block_read_more]. *)
Definition block_older : Selection := {|
  AUTHOR_NAME_text := "Bran";
  REVIEW_DATE_text := "March 6, 2015";
  REVIEW_PERMALINK_href := Some "/r/2";
  REVIEW_TITLE_text := "Climbing";
  REVIEW_MESSAGE_text := "Works well. Full Review";
  REVIEW_LINK_text := "Full Review";
  REVIEW_RATE_style := Some "width: 100%;"
|}.


(* ===================================================================== *)
(** * Part II: properties                                                 *)
(* ===================================================================== *)

(** ** The standard library on sample input *)

Example nextStdChunk_en :
  nextStdChunk "January 2, 2006" = ("", Some stdLongMonth, " 2, 2006")
  /\ nextStdChunk " 2, 2006" = (" ", Some stdDay, ", 2006")
  /\ nextStdChunk ", 2006" = (", ", Some stdLongYear, "")
  /\ nextStdChunk "" = ("", None, "").
Proof. repeat split; reflexivity. Qed.

Example nextStdChunk_zh_tw :
  nextStdChunk "2006年1月2日" = ("", Some stdLongYear, "年1月2日")
  /\ nextStdChunk "年1月2日" = ("年", Some stdNumMonth, "月2日")
  /\ nextStdChunk "月2日" = ("月", Some stdDay, "日")
  /\ nextStdChunk "日" = ("日", None, "").
Proof. repeat split; reflexivity. Qed.

Example time_Parse_en :
  time_Parse "January 2, 2006" "March 7, 2015" = Some (time_Date 2015 3 7)
  /\ time_Date 2015 3 7 = mkTime 1425686400
  /\ time_Parse "January 2, 2006" "march  7, 2015" = Some (time_Date 2015 3 7)
  /\ time_Parse "January 2, 2006" "February 30, 2015" = None
  /\ time_Parse "January 2, 2006" "7 March 2015" = None
  /\ time_Parse "January 2, 2006" "" = None.
Proof. repeat split; reflexivity. Qed.

Example time_Parse_zh_tw :
  time_Parse "2006年1月2日" "2015年3月7日" = Some (time_Date 2015 3 7)
  /\ time_Parse "2006年1月2日" "2015年13月7日" = None
  /\ time_Parse "2006年1月2日" "March 7, 2015" = None
  /\ time_Parse "2006年1月2日" "" = None.
Proof. repeat split; reflexivity. Qed.

Example Format_samples :
  Format_2006_01_02 (time_Date 2015 3 7) = "2015-03-07"
  /\ Format_2006_01_02 (time_Date 2016 2 29) = "2016-02-29"
  /\ Format_2006_01_02 (time_Date 2016 12 31) = "2016-12-31"
  /\ Format_2006_01_02 (time_Date 2000 3 1) = "2000-03-01"
  /\ Format_2006_01_02 (time_Date 1900 3 1) = "1900-03-01"
  /\ Format_2006_01_02 (time_Date 1999 12 31) = "1999-12-31"
  /\ Format_2006_01_02 (time_Date 0 1 1) = "0000-01-01".
Proof. repeat split; vm_compute; reflexivity. Qed.

Example strings_Split_samples :
  strings_Split "Great app! Read more" "Read more" = ["Great app! "; ""]
  /\ strings_Split "a,b,c" "," = ["a"; "b"; "c"]
  /\ strings_Split "Great app!" "Full Review" = ["Great app!"]
  /\ strings_Split "" "Full Review" = [""]
  /\ strings_Split "日本" "" = ["日"; "本"]
  /\ strings_Split "" "" = [].
Proof. repeat split; reflexivity. Qed.

(** ** Facts on byte strings *)

Lemma app_nil_str (s : string) : "" +:+ s = s.
Proof. reflexivity. Qed.

Lemma app_cons_str (c : ascii) (a b : string) :
  String c a +:+ b = String c (a +:+ b).
Proof. reflexivity. Qed.

Ltac str_simpl := simpl; rewrite ?app_cons_str, ?app_nil_str; simpl.

Lemma app_empty_r (s : string) : s +:+ "" = s.
Proof. induction s as [|c s IH]; str_simpl; [reflexivity | by rewrite IH]. Qed.

Lemma app_assoc_str (a b c : string) : (a +:+ b) +:+ c = a +:+ (b +:+ c).
Proof. induction a as [|x a IH]; str_simpl; [reflexivity | by rewrite IH]. Qed.

Lemma length_app_str (a b : string) :
  String.length (a +:+ b) = String.length a + String.length b.
Proof. induction a as [|x a IH]; str_simpl; [reflexivity | by rewrite IH]. Qed.

Lemma slice_to_app (a b : string) : slice_to (String.length a) (a +:+ b) = a.
Proof. induction a as [|x a IH]; str_simpl; [by destruct b | by rewrite IH]. Qed.

Lemma slice_from_app (a b : string) : slice_from (String.length a) (a +:+ b) = b.
Proof. induction a as [|x a IH]; str_simpl; [by destruct b | done]. Qed.

Lemma slice_to_from (n : nat) (s : string) : slice_to n s +:+ slice_from n s = s.
Proof.
  revert s; induction n as [|n IH]; intros [|c s]; str_simpl; try reflexivity.
  by rewrite IH.
Qed.

Lemma length_slice_to (n : nat) (s : string) :
  n <= String.length s -> String.length (slice_to n s) = n.
Proof.
  revert s; induction n as [|n IH]; intros [|c s]; simpl; intros Hn;
    try reflexivity; try lia.
  rewrite IH; lia.
Qed.

Lemma length_slice_from (n : nat) (s : string) :
  String.length (slice_from n s) = String.length s - n.
Proof.
  revert s; induction n as [|n IH]; intros [|c s]; simpl; try reflexivity.
  apply IH.
Qed.

Lemma slice_to_all (n : nat) (s : string) :
  String.length s <= n -> slice_to n s = s.
Proof.
  revert s; induction n as [|n IH]; intros [|c s]; simpl; intros Hn;
    try reflexivity; try lia.
  rewrite IH; [reflexivity | lia].
Qed.

Lemma length_zero_empty (s : string) : String.length s = 0 -> s = "".
Proof. by destruct s. Qed.

(** ** strings.HasPrefix, strings.Index, strings.Contains *)

Lemma HasPrefix_spec (s p : string) :
  strings_HasPrefix s p = true <-> exists t, s = p +:+ t.
Proof.
  revert s; induction p as [|x p IH]; intros s; simpl.
  - split; [by exists s | done].
  - destruct s as [|c s].
    + split; [done | by intros [t Ht]].
    + destruct (Ascii.eqb_spec c x) as [->|Hne].
      * rewrite IH. split; intros [t Ht]; exists t; rewrite app_cons_str in *; congruence.
      * split; [done | intros [t Ht]; rewrite app_cons_str in Ht; congruence].
Qed.

Lemma Index_unfold (s substr : string) :
  strings_Index s substr =
  if strings_HasPrefix s substr then Some 0
  else match s with
       | "" => None
       | String _ s' => S <$> strings_Index s' substr
       end.
Proof. by destruct s. Qed.

(** [Index] finds an instance, and no instance starts before it. *)
Lemma Index_Some (s substr : string) (i : nat) :
  strings_Index s substr = Some i ->
  s = slice_to i s +:+ substr +:+ slice_from (i + String.length substr) s
  /\ i + String.length substr <= String.length s
  /\ forall p q, s = p +:+ substr +:+ q -> i <= String.length p.
Proof.
  revert i; induction s as [|c s IH]; intros i; rewrite Index_unfold.
  - destruct (strings_HasPrefix "" substr) eqn:Hp; [|done].
    intros [= <-]. apply HasPrefix_spec in Hp as [t Ht].
    destruct substr; [|done]. simpl. repeat split; [lia | intros; lia].
  - destruct (strings_HasPrefix (String c s) substr) eqn:Hp.
    + intros [= <-]. apply HasPrefix_spec in Hp as [t Ht].
      change (slice_to 0 (String c s)) with "". rewrite app_nil_str.
      change (0 + String.length substr) with (String.length substr).
      rewrite Ht, slice_from_app, length_app_str.
      repeat split; [lia | intros; lia].
    + destruct (strings_Index s substr) as [j|] eqn:Hj; [|done].
      intros [= <-]. destruct (IH j eq_refl) as (Heq & Hlen & Hmin).
      repeat split.
      * simpl. rewrite app_cons_str. by rewrite <- Heq.
      * simpl; lia.
      * intros [|x p] q Hpq.
        -- exfalso. assert (strings_HasPrefix (String c s) substr = true) as Hp'; [|congruence].
           apply HasPrefix_spec. by exists q.
        -- rewrite app_cons_str in Hpq. injection Hpq as -> Hs. apply Hmin in Hs. simpl; lia.
Qed.

Lemma Index_None (s substr : string) :
  strings_Index s substr = None -> forall p q, s <> p +:+ substr +:+ q.
Proof.
  induction s as [|c s IH]; rewrite Index_unfold.
  - destruct (strings_HasPrefix "" substr) eqn:Hp; [done|].
    intros _ p q Hpq. destruct p; [|done]. rewrite app_nil_str in Hpq.
    assert (strings_HasPrefix "" substr = true) as Hp'; [|congruence].
    apply HasPrefix_spec. by exists q.
  - destruct (strings_HasPrefix (String c s) substr) eqn:Hp; [done|].
    destruct (strings_Index s substr) eqn:Hj; [done|].
    intros _ [|x p] q Hpq.
    + assert (strings_HasPrefix (String c s) substr = true) as Hp'; [|congruence].
      apply HasPrefix_spec. by exists q.
    + rewrite app_cons_str in Hpq. injection Hpq as -> Hs. by apply (IH eq_refl p q).
Qed.

Lemma Contains_spec (s substr : string) :
  strings_Contains s substr = true <-> occurs_in substr s.
Proof.
  unfold strings_Contains, occurs_in.
  destruct (strings_Index s substr) as [i|] eqn:Hi.
  - split; [intros _ | done]. apply Index_Some in Hi as (Heq & _). eauto.
  - split; [done | intros (p & q & Hpq)]. by apply Index_None with (p := p) (q := q) in Hi.
Qed.

Lemma Contains_false (s substr : string) :
  strings_Contains s substr = false <-> ~ occurs_in substr s.
Proof.
  rewrite <- Contains_spec. destruct (strings_Contains s substr); split; congruence.
Qed.

(** ** parseRate *)

(** C3, as the code has it: the decoder gives the rating of the first of the
    tokens "width: 20%", "width: 40%", "width: 60%", "width: 80%",
    "width: 100%" (tried in this order) that occurs in the style string --
    one to four [:star:] glyphs, or five [:star2:] glyphs for the last one --
    and the empty rating for every string in which none of them occurs, such
    as "width: 35%" and the empty string. *)
Theorem parseRate_first_token (message : string) :
  (occurs_in "width: 20%" message -> parseRate message = ":star:")
  /\ (~ occurs_in "width: 20%" message -> occurs_in "width: 40%" message ->
      parseRate message = ":star::star:")
  /\ (~ occurs_in "width: 20%" message -> ~ occurs_in "width: 40%" message ->
      occurs_in "width: 60%" message ->
      parseRate message = ":star::star::star:")
  /\ (~ occurs_in "width: 20%" message -> ~ occurs_in "width: 40%" message ->
      ~ occurs_in "width: 60%" message -> occurs_in "width: 80%" message ->
      parseRate message = ":star::star::star::star:")
  /\ (~ occurs_in "width: 20%" message -> ~ occurs_in "width: 40%" message ->
      ~ occurs_in "width: 60%" message -> ~ occurs_in "width: 80%" message ->
      occurs_in "width: 100%" message ->
      parseRate message = ":star2::star2::star2::star2::star2:")
  /\ (~ occurs_in "width: 20%" message -> ~ occurs_in "width: 40%" message ->
      ~ occurs_in "width: 60%" message -> ~ occurs_in "width: 80%" message ->
      ~ occurs_in "width: 100%" message ->
      parseRate message = "")
  /\ parseRate "width: 35%" = "" /\ parseRate "" = "".
Proof.
  unfold parseRate.
  repeat split; try reflexivity;
    repeat (let H := fresh in intros H;
            first [ apply Contains_spec in H | apply Contains_false in H ];
            rewrite H);
    reflexivity.
Qed.

Lemma parseRate_first_token_witness :
  parseRate "width: 20%" = ":star:"
  /\ parseRate "width: 40%" = ":star::star:"
  /\ parseRate "width: 60%" = ":star::star::star:"
  /\ parseRate "width: 80%" = ":star::star::star::star:"
  /\ parseRate "width: 100%" = ":star2::star2::star2::star2::star2:"
  /\ parseRate "height: 10px" = "".
Proof.
  assert (forall t s, strings_Contains s t = false -> ~ occurs_in t s) as N
    by (intros t s; apply Contains_false).
  assert (forall t s, strings_Contains s t = true -> occurs_in t s) as Y
    by (intros t s; apply Contains_spec).
  split; [apply (parseRate_first_token "width: 20%"); by apply Y|].
  split; [apply (parseRate_first_token "width: 40%"); by (apply Y || apply N)|].
  split; [apply (parseRate_first_token "width: 60%"); by (apply Y || apply N)|].
  split; [apply (parseRate_first_token "width: 80%"); by (apply Y || apply N)|].
  split; [apply (parseRate_first_token "width: 100%"); by (apply Y || apply N)|].
  apply (parseRate_first_token "height: 10px"); by apply N.
Defined.

(** C3, as stated, fails: a style string in which "width: 40%" occurs is
    given one star when "width: 20%" occurs in it too. *)
Lemma parseRate_not_by_containment :
  occurs_in "width: 40%" "min-width: 20%; width: 40%"
  /\ parseRate "min-width: 20%; width: 40%" <> ":star::star:".
Proof.
  split; [by apply Contains_spec | done].
Qed.

(** ** strings.Split *)

Lemma genSplit_loop_S (k : nat) (s sep : string) :
  genSplit_loop (S k) s sep =
  match strings_Index s sep with
  | None => [s]
  | Some m => slice_to m s :: genSplit_loop k (slice_from (m + String.length sep) s) sep
  end.
Proof. reflexivity. Qed.

Lemma Count_nonempty_sep (s sep : string) :
  sep <> "" -> strings_Count s sep = Count_loop (String.length s) s sep.
Proof. by destruct sep. Qed.

Lemma Split_nonempty_sep (s sep : string) :
  sep <> "" ->
  strings_Split s sep =
  genSplit_loop (Nat.min (strings_Count s sep + 1) (String.length s + 1) - 1) s sep.
Proof. by destruct sep. Qed.

Lemma Split_head (s sep : string) :
  sep <> "" ->
  strings_Split s sep !! 0 =
  Some (match strings_Index s sep with Some m => slice_to m s | None => s end).
Proof.
  intros Hsep. rewrite Split_nonempty_sep, Count_nonempty_sep by done.
  destruct (strings_Index s sep) as [m|] eqn:Hm.
  - pose proof (Index_Some _ _ _ Hm) as (_ & Hlen & _).
    assert (exists f, String.length s = S f) as [f Hf].
    { destruct (String.length s) eqn:E; [|eauto].
      destruct sep; [done | simpl in Hlen; lia]. }
    rewrite Hf. simpl Count_loop. rewrite Hm.
    replace (Nat.min (S (Count_loop f (slice_from (m + String.length sep) s) sep) + 1)
               (S f + 1) - 1)
      with (S (Nat.min (Count_loop f (slice_from (m + String.length sep) s) sep) f))
      by lia.
    rewrite genSplit_loop_S. by rewrite Hm.
  - destruct (Nat.min _ _ - 1); [done|]. rewrite genSplit_loop_S. by rewrite Hm.
Qed.

(** The first piece of a split on a non-empty separator is the text cut off
    at the separator's first instance. *)
Lemma Split_head_cut (s sep : string) :
  sep <> "" ->
  exists msg, strings_Split s sep !! 0 = Some msg /\ cut_at_first sep s msg.
Proof.
  intros Hsep. rewrite Split_head by done.
  destruct (strings_Index s sep) as [m|] eqn:Hm; eexists; (split; [reflexivity|]).
  - left. pose proof (Index_Some _ _ _ Hm) as (Heq & Hlen & Hmin).
    exists (slice_from (m + String.length sep) s). split; [done|].
    intros p q Hpq. rewrite length_slice_to by lia. eauto.
  - right. split; [|done]. intros (p & q & Hpq). by eapply Index_None.
Qed.

(** ** Runes *)

Lemma DecodeRune_size_bounds (s : string) :
  s <> "" ->
  1 <= utf8_DecodeRuneInString_size s <= String.length s.
Proof.
  intros Hs. destruct s as [|c0 [|c1 [|c2 [|c3 t]]]]; [done|..];
    unfold utf8_DecodeRuneInString_size; repeat case_match; simpl; lia.
Qed.

Lemma RuneCount_loop_zero (fuel : nat) (s : string) :
  String.length s <= fuel -> RuneCount_loop fuel s = 0 -> s = "".
Proof.
  destruct fuel, s; simpl; intros; try done; lia.
Qed.

Lemma RuneCount_loop_S (fuel : nat) (s : string) :
  s <> "" ->
  RuneCount_loop (S fuel) s =
  S (RuneCount_loop fuel (slice_from (utf8_DecodeRuneInString_size s) s)).
Proof. by destruct s. Qed.

Lemma runes_loop_S (fuel : nat) (s : string) :
  s <> "" ->
  runes_loop (S fuel) s =
  first_rune s :: runes_loop fuel (slice_from (utf8_DecodeRuneInString_size s) s).
Proof. by destruct s. Qed.

Lemma length_pos_nonempty (s : string) : s <> "" -> 1 <= String.length s.
Proof. destruct s; [done | simpl; lia]. Qed.

Lemma explode_loop_runes (fuel : nat) (s : string) (k : nat) :
  String.length s <= fuel ->
  RuneCount_loop fuel s = S k ->
  explode_loop k s = runes_loop fuel s.
Proof.
  revert s k; induction fuel as [|fuel IH]; intros s k Hlen Hcount; [done|].
  assert (s <> "") as Hs by (by intros ->).
  pose proof (DecodeRune_size_bounds s Hs) as Hsize.
  rewrite RuneCount_loop_S in Hcount by done. rewrite runes_loop_S by done.
  injection Hcount as Hcount.
  assert (String.length (slice_from (utf8_DecodeRuneInString_size s) s) <= fuel) as Hrest.
  { rewrite length_slice_from. lia. }
  destruct k as [|k].
  - apply RuneCount_loop_zero in Hcount; [|done].
    rewrite Hcount. simpl. f_equal; [|by destruct fuel].
    unfold first_rune. symmetry. apply slice_to_all.
    assert (String.length (slice_from (utf8_DecodeRuneInString_size s) s) = 0) as E
      by (by rewrite Hcount).
    rewrite length_slice_from in E. lia.
  - simpl explode_loop. fold (first_rune s). f_equal. by apply IH.
Qed.

(** A split on the empty separator yields the UTF-8 sequences of the text. *)
Lemma Split_empty_sep (s : string) : strings_Split s "" = runes s.
Proof.
  unfold strings_Split, explode, runes, utf8_RuneCountInString.
  destruct (RuneCount_loop (String.length s) s) as [|k] eqn:Hk.
  - apply RuneCount_loop_zero in Hk; [by subst | done].
  - by apply explode_loop_runes.
Qed.

Lemma runes_head (s : string) : s <> "" -> runes s !! 0 = Some (first_rune s).
Proof. by destruct s. Qed.


(** ** GetReview: one block *)

Lemma index_head {A} (l : list A) :
  index l 0 = match l !! 0 with Some a => Done a | None => Panic "index out of range" end.
Proof. reflexivity. Qed.

(** What the callback does with a block, by the outcome of the date parse and
    of the split. *)
Lemma GetReview_each_cases (config : Config) (s : Selection) (reviews : Reviews) :
  match time_Parse (timeForm config) (REVIEW_DATE_text s) with
  | None => GetReview_each config s reviews = Done reviews
  | Some date =>
      match strings_Split (REVIEW_MESSAGE_text s) (REVIEW_LINK_text s) !! 0 with
      | None => GetReview_each config s reviews = Panic "index out of range"
      | Some msg =>
          exists review,
            GetReview_each config s reviews = Done (reviews ++ [review])%list
            /\ Message review = msg
            /\ UpdatedAt review = date
            /\ Author review = AUTHOR_NAME_text s
            /\ Permalink review = default "" (REVIEW_PERMALINK_href s)
            /\ Rate review = parseRate (default "" (REVIEW_RATE_style s))
      end
  end.
Proof.
  unfold GetReview_each.
  destruct (time_Parse _ _) as [date|]; [|done].
  rewrite index_head.
  destruct (strings_Split _ _ !! 0) as [msg|]; [|done].
  eexists. split; [reflexivity|]. done.
Qed.

(** A block whose link text is not empty: the message is the body cut off at
    the first instance of the link text, and the whole body when there is
    none. *)
Lemma GetReview_each_message_cut (config : Config) (s : Selection)
    (reviews : Reviews) (date : Time) :
  time_Parse (timeForm config) (REVIEW_DATE_text s) = Some date ->
  REVIEW_LINK_text s <> "" ->
  exists review,
    GetReview_each config s reviews = Done (reviews ++ [review])%list
    /\ cut_at_first (REVIEW_LINK_text s) (REVIEW_MESSAGE_text s) (Message review).
Proof.
  intros Hdate Hlink.
  pose proof (GetReview_each_cases config s reviews) as H. rewrite Hdate in H.
  destruct (Split_head_cut (REVIEW_MESSAGE_text s) _ Hlink) as (msg & Hmsg & Hcut).
  rewrite Hmsg in H. destruct H as (review & Hrun & <- & _). eauto.
Qed.

Example GetReview_each_read_more :
  exists review,
    GetReview_each config_en block_read_more [] = Done [review]
    /\ Message review = "Great app! ".
Proof. eexists. split; reflexivity. Qed.

(** C2 at the block without a link control: the link text is empty, the
    body is "Great app!", and the message is "G" -- neither the body cut off
    at the first instance of the link text (the empty text, at index 0) nor
    the body itself; with an empty body as well, the callback panics. *)
Theorem GetReview_each_no_link_diverges :
  REVIEW_LINK_text block_no_link = ""
  /\ REVIEW_MESSAGE_text block_no_link = "Great app!"
  /\ (exists review,
        GetReview_each config_en block_no_link [] = Done [review]
        /\ Message review = "G")
  /\ ~ cut_at_first "" "Great app!" "G"
  /\ GetReview_each config_en block_no_link_no_body [] = Panic "index out of range".
Proof.
  split; [reflexivity|]. split; [reflexivity|].
  split; [eexists; split; reflexivity|].
  split; [|reflexivity].
  intros [(rest & Heq & Hmin) | (Hno & Heq)]; [|done].
  specialize (Hmin "" "Great app!" eq_refl). simpl in Hmin. lia.
Qed.



(** ** GetReview: the date of a block *)

(** A block whose date does not parse under the selected layout is skipped. *)
Lemma GetReview_each_skips_unparsed (config : Config) (s : Selection) (reviews : Reviews) :
  time_Parse (timeForm config) (REVIEW_DATE_text s) = None ->
  GetReview_each config s reviews = Done reviews.
Proof.
  intros Hdate. pose proof (GetReview_each_cases config s reviews) as H.
  by rewrite Hdate in H.
Qed.

Lemma timeForm_other_locale (config : Config) :
  Location config <> "zh-tw" -> Location config <> "en" -> timeForm config = "".
Proof.
  intros Hzh Hen. unfold timeForm.
  destruct (String.eqb_spec (Location config) "zh-tw"); [done|].
  by destruct (String.eqb_spec (Location config) "en").
Qed.

(** Under the empty layout every text fails to parse but the empty one, which
    parses to 1 January of year 0. *)
Lemma time_Parse_empty_layout (value : string) :
  time_Parse "" value = if String.eqb value "" then Some (time_Date 0 1 1) else None.
Proof. by destruct value. Qed.

(** Under a locale without layout, a block with date text is skipped. *)
Lemma GetReview_each_other_locale (config : Config) (s : Selection) (reviews : Reviews) :
  Location config <> "zh-tw" -> Location config <> "en" ->
  REVIEW_DATE_text s <> "" ->
  GetReview_each config s reviews = Done reviews.
Proof.
  intros Hzh Hen Hdate. apply GetReview_each_skips_unparsed.
  rewrite timeForm_other_locale, time_Parse_empty_layout by done.
  by destruct (String.eqb_spec (REVIEW_DATE_text s) "").
Qed.

(** ** sort.Sort on Reviews *)

Lemma insert_rev_Permutation (x : Review) (q : Reviews) : insert_rev x q ≡ₚ x :: q.
Proof.
  induction q as [|y q IH]; simpl; [done|].
  destruct (more_recent x y); [|done].
  rewrite IH. apply Permutation_swap.
Qed.

Lemma length_insert_sorted (p : Reviews) (x : Review) :
  length (insert_sorted p x) = S (length p).
Proof.
  unfold insert_sorted.
  by rewrite length_reverse, (Permutation_length (insert_rev_Permutation _ _)); simpl;
    rewrite length_reverse.
Qed.

Lemma insert_sorted_Permutation (p : Reviews) (x : Review) :
  insert_sorted p x ≡ₚ x :: p.
Proof.
  unfold insert_sorted.
  by rewrite reverse_Permutation, insert_rev_Permutation, reverse_Permutation.
Qed.

Lemma insert_sorted_snoc (p : Reviews) (x y : Review) :
  insert_sorted (p ++ [y]) x =
  if more_recent x y then insert_sorted p x ++ [y] else p ++ [y; x].
Proof.
  unfold insert_sorted. rewrite reverse_snoc. simpl.
  destruct (more_recent x y).
  - by rewrite reverse_cons.
  - by rewrite !reverse_cons, reverse_involutive, <- app_assoc.
Qed.

Lemma lookup_middle_next {A} (p : list A) (y x : A) (rest : list A) :
  (p ++ y :: x :: rest) !! S (length p) = Some x.
Proof.
  replace (p ++ y :: x :: rest) with ((p ++ [y]) ++ x :: rest)
    by (by rewrite <- app_assoc).
  replace (S (length p)) with (length (p ++ [y])) by (rewrite length_app; simpl; lia).
  apply list_lookup_middle. done.
Qed.

(** The inner loop moves the element at index [length p] into the part [p]
    before it. *)
Lemma insertionSort_inner_spec (p : Reviews) (x : Review) (rest : Reviews) :
  insertionSort_inner (p ++ x :: rest) 0 (length p) = Done (insert_sorted p x ++ rest).
Proof.
  revert x rest. induction p as [|y p IH] using rev_ind; intros x rest; [done|].
  rewrite length_app, Nat.add_1_r, <- app_assoc. simpl app.
  cbn [insertionSort_inner]. change (0 <? S (length p))%nat with true. cbv iota.
  unfold Less, Swap; simpl. unfold Reviews_Less, Reviews_Swap, index.
  rewrite lookup_middle_next, list_lookup_middle by done. simpl.
  rewrite insert_sorted_snoc. fold (more_recent x y).
  destruct (more_recent x y).
  - replace (<[length p:=x]> (<[S (length p):=y]> (p ++ y :: x :: rest)))
      with (p ++ x :: y :: rest).
    + rewrite IH. by rewrite <- app_assoc.
    + rewrite (insert_app_r_alt p _ (S (length p))) by lia.
      replace (S (length p) - length p) with 1 by lia. simpl.
      rewrite (insert_app_r_alt p _ (length p)) by lia.
      by replace (length p - length p) with 0 by lia.
  - by rewrite <- app_assoc.
Qed.

Lemma insertionSort_outer_spec (rest p : Reviews) :
  insertionSort_outer (length rest) (p ++ rest) 0 (length p)
  = Done (fold_left insert_sorted rest p).
Proof.
  revert p. induction rest as [|x rest IH]; intros p; simpl.
  - by rewrite app_nil_r.
  - rewrite insertionSort_inner_spec. simpl.
    rewrite <- (length_insert_sorted p x). apply IH.
Qed.

(** [sort.Sort] returns, with the insertion sort of its argument. *)
Lemma sort_Sort_isort (reviews : Reviews) : sort_Sort reviews = Done (isort reviews).
Proof.
  unfold sort_Sort, insertionSort, isort. destruct reviews as [|x rest]; [done|].
  simpl Len. unfold Reviews_Len. simpl length.
  replace (S (length rest) - (0 + 1)) with (length rest) by lia.
  apply (insertionSort_outer_spec rest [x]).
Qed.

Lemma insert_rev_sorted (x : Review) (q : Reviews) :
  StronglySorted (fun a b => Time_le (UpdatedAt a) (UpdatedAt b)) q ->
  StronglySorted (fun a b => Time_le (UpdatedAt a) (UpdatedAt b)) (insert_rev x q).
Proof.
  induction 1 as [|y q Hq IH Hy]; simpl; [repeat constructor|].
  unfold more_recent. destruct (Z.ltb_spec (Unix (UpdatedAt y)) (Unix (UpdatedAt x))).
  - constructor; [done|]. rewrite insert_rev_Permutation.
    constructor; [unfold Time_le; lia | done].
  - constructor; [by constructor|]. constructor; [done|].
    eapply Forall_impl; [exact Hy|]. unfold Time_le. intros z Hz. simpl in *. lia.
Qed.

Lemma StronglySorted_reverse {A} (R : relation A) (l : list A) :
  StronglySorted R l -> StronglySorted (flip R) (reverse l).
Proof.
  induction 1 as [|x l Hl IH Hx]; [constructor|].
  rewrite reverse_cons. apply StronglySorted_app_2; [|done|repeat constructor].
  intros a b Ha Hb. rewrite list_elem_of_singleton in Hb. subst b.
  rewrite elem_of_reverse in Ha. rewrite Forall_forall in Hx. unfold flip. by apply Hx.
Qed.

Lemma insert_sorted_descending (p : Reviews) (x : Review) :
  descending p -> descending (insert_sorted p x).
Proof.
  intros Hp. unfold descending, insert_sorted.
  apply (StronglySorted_reverse (fun a b => Time_le (UpdatedAt a) (UpdatedAt b))).
  apply insert_rev_sorted.
  by apply (StronglySorted_reverse (fun a b => Time_le (UpdatedAt b) (UpdatedAt a))).
Qed.

Lemma fold_insert_sorted (l p : Reviews) :
  descending p ->
  descending (fold_left insert_sorted l p) /\ fold_left insert_sorted l p ≡ₚ p ++ l.
Proof.
  revert p. induction l as [|x l IH]; intros p Hp; simpl.
  - by rewrite app_nil_r.
  - destruct (IH (insert_sorted p x)) as [Hs Hperm]; [by apply insert_sorted_descending|].
    split; [done|]. rewrite Hperm, insert_sorted_Permutation.
    by rewrite <- Permutation_middle.
Qed.

Lemma isort_descending (l : Reviews) : descending (isort l).
Proof. apply fold_insert_sorted. constructor. Qed.

Lemma isort_Permutation (l : Reviews) : isort l ≡ₚ l.
Proof. apply (fold_insert_sorted l []). constructor. Qed.





(** ** GetReview on a page *)

(** C4 at a locale without layout and a block without date text: the empty
    text parses under the empty layout, the block is not skipped, and its
    review carries 1 January of year 0. *)
Theorem GetReview_other_locale_no_date :
  Location config_fr <> "zh-tw" /\ Location config_fr <> "en"
  /\ REVIEW_DATE_text block_no_date = ""
  /\ exists review,
       GetReview_parse config_fr [block_no_date] = Done [review]
       /\ UpdatedAt review = time_Date 0 1 1
       /\ Unix (UpdatedAt review) = (-62167219200)%Z
       /\ Format_2006_01_02 (UpdatedAt review) = "0000-01-01".
Proof.
  repeat split; try done.
  eexists. split; [reflexivity|]. repeat split.
Qed.

(** A skipped block leaves the rest of the page as it is read without it. *)
Lemma GetReview_Each_skip (config : Config) (before after : list Selection)
    (s : Selection) (reviews : Reviews) :
  time_Parse (timeForm config) (REVIEW_DATE_text s) = None ->
  GetReview_Each config (before ++ s :: after) reviews
  = GetReview_Each config (before ++ after) reviews.
Proof.
  intros Hdate. revert reviews. induction before as [|b before IH]; intros reviews; simpl.
  - by rewrite GetReview_each_skips_unparsed.
  - destruct (GetReview_each config b reviews); simpl; [apply IH | done].
Qed.

(** ** SaveReviews *)

Lemma find_permalink (uri : string) (table : list Row) :
  match List.find (fun r => String.eqb (row_comment_uri r) uri) table with
  | Some _ => uri ∈ (row_comment_uri <$> table)
  | None => uri ∉ (row_comment_uri <$> table)
  end.
Proof.
  induction table as [|r table IH]; simpl; [apply not_elem_of_nil|].
  destruct (String.eqb_spec (row_comment_uri r) uri) as [<-|Hne].
  - left.
  - destruct (List.find _ table).
    + by right.
    + apply not_elem_of_cons. split; [congruence | done].
Qed.

Lemma permalinks_insert (db : DB) (id : positive) (review : Review) (s : positive)
    (fs : list (option error)) :
  permalinks (mkDB (rows db ++ [identity_record id review]) s fs)
  = permalinks db ++ [Permalink review].
Proof. unfold permalinks. simpl. by rewrite fmap_app. Qed.

(** The three ways through the body of the loop: it returns with an error
    and the table as it was; it finds the permalink on record; or it finds
    none, inserts the identity record and keeps the review. *)
Lemma SaveReviews_body_cases (review : Review) (postReviews : Reviews) (db : DB) :
  no_rows_reserved db ->
  exists db' post' err,
    SaveReviews_body review postReviews db = (db', (post', err))
    /\ no_rows_reserved db'
    /\ (fault_free db -> fault_free db' /\ err = None)
    /\ ((err <> None /\ post' = postReviews
         /\ rows db' = rows db /\ serial db' = serial db)
        \/ (err = None /\ Permalink review ∈ permalinks db /\ post' = postReviews
            /\ rows db' = rows db /\ serial db' = serial db)
        \/ (err = None /\ (Permalink review ∉ permalinks db)
            /\ post' = postReviews ++ [review]
            /\ rows db' = rows db ++ [identity_record (serial db) review]
            /\ serial db' = Pos.succ (serial db))).
Proof.
  intros Hres. unfold SaveReviews_body, SaveReviews_insert, QueryRow_Scan, Exec_INSERT, next_fault.
  unfold no_rows_reserved, fault_free in *. destruct db as [table next fs]. simpl in *.
  pose proof (find_permalink (Permalink review) table) as Hfind.
  destruct fs as [|[e|] fs]; simpl.
  - (* nothing in store for the driver *)
    destruct (List.find _ table) as [r|]; simpl.
    + do 3 eexists. split; [reflexivity|]. split; [done|]. split; [done|].
      right; left. done.
    + do 3 eexists. split; [reflexivity|]. split; [done|]. split; [done|].
      right; right. done.
  - (* the lookup fails *)
    apply Forall_cons in Hres as [He Hres].
    destruct (String.eqb_spec e ErrNoRows) as [->|Hne]; [done|]. simpl.
    do 3 eexists. split; [reflexivity|]. split; [done|].
    split; [by intros [? ?]%Forall_cons|]. left. done.
  - (* the lookup goes through *)
    apply Forall_cons in Hres as [_ Hres].
    destruct (List.find _ table) as [r|]; simpl.
    + do 3 eexists. split; [reflexivity|]. split; [done|].
      split; [by intros [? ?]%Forall_cons|]. right; left. done.
    + destruct fs as [|[e|] fs]; simpl.
      * do 3 eexists. split; [reflexivity|]. split; [done|]. split; [done|].
        right; right. done.
      * apply Forall_cons in Hres as [He Hres].
        do 3 eexists. split; [reflexivity|]. split; [done|].
        split; [by intros [? [? ?]%Forall_cons]%Forall_cons|]. left. done.
      * apply Forall_cons in Hres as [_ Hres].
        do 3 eexists. split; [reflexivity|]. split; [done|].
        split; [by intros [? [? ?]%Forall_cons]%Forall_cons|]. right; right. done.
Qed.

Lemma identity_records_app (id : positive) (l1 l2 : Reviews) :
  identity_records id (l1 ++ l2)
  = identity_records id l1 ++ identity_records (Pos.of_nat (Pos.to_nat id + length l1)) l2.
Proof.
  revert id. induction l1 as [|r l1 IH]; intros id; simpl.
  - by rewrite Nat.add_0_r, Pos2Nat.id.
  - rewrite IH. do 3 f_equal. lia.
Qed.

Lemma permalinks_identity_records (id : positive) (l : Reviews) :
  row_comment_uri <$> identity_records id l = Permalink <$> l.
Proof. revert id. induction l as [|r l IH]; intros id; simpl; [done | by rewrite IH]. Qed.

(** The run of the loop, in the words of [filterNew]: the loop visits some
    number [k] of the reviews -- all of them unless it returns with an error
    -- and what it appends and records are the new ones among those. *)
Lemma SaveReviews_loop_trace (reviews postReviews : Reviews) (db : DB) :
  no_rows_reserved db ->
  exists db' post' err k,
    SaveReviews_loop reviews postReviews db = (db', (post', err))
    /\ post' = postReviews ++ filterNew (permalinks db) (take k reviews)
    /\ rows db' = rows db
                  ++ identity_records (serial db) (filterNew (permalinks db) (take k reviews))
    /\ (err = None -> take k reviews = reviews)
    /\ (fault_free db -> err = None /\ fault_free db').
Proof.
  revert postReviews db. induction reviews as [|review reviews IH]; intros post db Hres.
  { exists db, post, None, 0. simpl. by rewrite !app_nil_r. }
  destruct (SaveReviews_body_cases review post db Hres)
    as (db1 & post1 & err1 & Hbody & Hres1 & Hfree & Hcases).
  simpl. rewrite Hbody.
  destruct Hcases as [(Herr & -> & Hrows & Hser) | [(-> & Hin & -> & Hrows & Hser)
                      | (-> & Hnotin & -> & Hrows & Hser)]].
  - destruct err1 as [e|]; [|done].
    exists db1, post, (Some e), 0. simpl. rewrite !app_nil_r.
    split; [done|]. split; [done|]. split; [done|]. split; [done|].
    intros Hf. by destruct (Hfree Hf).
  - destruct (IH post db1 Hres1) as (db' & post' & err & k & Hloop & Hpost & Hrows' & Hall & Hfree').
    exists db', post', err, (S k). simpl.
    assert (permalinks db1 = permalinks db) as Hperm by (unfold permalinks; by rewrite Hrows).
    rewrite Hperm, Hrows, Hser in *.
    rewrite decide_True by done.
    split; [done|]. split; [done|]. split; [done|].
    split; [by intros ->%Hall | intros Hf; apply Hfree', Hfree, Hf].
  - destruct (IH (post ++ [review]) db1 Hres1)
      as (db' & post' & err & k & Hloop & Hpost & Hrows' & Hall & Hfree').
    exists db', post', err, (S k). simpl.
    assert (permalinks db1 = permalinks db ++ [Permalink review]) as Hperm.
    { unfold permalinks. rewrite Hrows. by rewrite fmap_app. }
    rewrite Hperm, Hrows, Hser in *.
    rewrite decide_False by done. simpl.
    rewrite <- !app_assoc in *. simpl in *.
    split; [done|]. split; [done|]. split; [done|].
    split; [by intros ->%Hall | intros Hf; apply Hfree', Hfree, Hf].
Qed.

(** ** filterNew *)

Lemma filterNew_fresh (seen : list string) (l : Reviews) :
  NoDup (Permalink <$> l) ->
  (forall r, r ∈ l -> Permalink r ∉ seen) ->
  filterNew seen l = l.
Proof.
  revert seen. induction l as [|r l IH]; intros seen Hnd Hfresh; simpl; [done|].
  rewrite fmap_cons in Hnd. apply NoDup_cons in Hnd as [Hr Hnd].
  rewrite decide_False by (apply Hfresh; left).
  f_equal. apply IH; [done|]. intros r' Hr'.
  rewrite elem_of_app, list_elem_of_singleton. intros [Hseen | Heq].
  - by apply (Hfresh r'); [right|].
  - apply Hr. rewrite <- Heq. by apply list_elem_of_fmap_2.
Qed.

Lemma filterNew_seen (seen : list string) (l : Reviews) :
  (forall r, r ∈ l -> Permalink r ∈ seen) -> filterNew seen l = [].
Proof.
  induction l as [|r l IH]; intros Hseen; simpl; [done|].
  rewrite decide_True by (apply Hseen; left).
  apply IH. intros r' Hr'. apply Hseen. by right.
Qed.

Lemma filterNew_NoDup (seen : list string) (l : Reviews) :
  NoDup seen -> NoDup (seen ++ (Permalink <$> filterNew seen l)).
Proof.
  revert seen. induction l as [|r l IH]; intros seen Hnd; simpl.
  - by rewrite app_nil_r.
  - destruct (decide (Permalink r ∈ seen)) as [Hin|Hnotin]; [by apply IH|].
    rewrite fmap_cons, cons_middle, app_assoc. apply IH.
    apply NoDup_app. split; [done|]. split; [|apply NoDup_singleton].
    intros x Hx ->%list_elem_of_singleton. done.
Qed.

Lemma filterNew_sublist (seen : list string) (l : Reviews) :
  filterNew seen l `sublist_of` l.
Proof.
  revert seen. induction l as [|r l IH]; intros seen; simpl; [done|].
  destruct (decide _); [by apply sublist_cons | by apply sublist_skip].
Qed.

(** Every candidate's permalink is on record after the pass. *)
Lemma filterNew_covers (seen : list string) (l : Reviews) (r : Review) :
  r ∈ l -> Permalink r ∈ seen ++ (Permalink <$> filterNew seen l).
Proof.
  revert seen. induction l as [|r' l IH]; intros seen Hr; [by apply elem_of_nil in Hr|].
  simpl. destruct (decide (Permalink r' ∈ seen)) as [Hin|Hnotin].
  - apply elem_of_cons in Hr as [->|Hr]; [|by apply IH].
    apply elem_of_app. by left.
  - rewrite fmap_cons, cons_middle, app_assoc.
    apply elem_of_cons in Hr as [->|Hr]; [|by apply IH].
    apply elem_of_app. left. apply elem_of_app. right. left.
Qed.

(** The first candidate under a permalink that is not on record is kept. *)
Lemma filterNew_first (seen : list string) (before after : Reviews) (r : Review) :
  Permalink r ∉ seen ->
  Permalink r ∉ (Permalink <$> before) ->
  r ∈ filterNew seen (before ++ r :: after).
Proof.
  revert seen. induction before as [|b before IH]; intros seen Hseen Hbefore; simpl.
  - rewrite decide_False by done. left.
  - rewrite fmap_cons in Hbefore. apply not_elem_of_cons in Hbefore as [Hne Hbefore].
    destruct (decide _); [by apply IH|].
    right. apply IH; [|done].
    rewrite elem_of_app, list_elem_of_singleton. intros [?|?]; done.
Qed.

Lemma filterNew_drop_duplicate (seen : list string) (l1 l2 : Reviews) (r : Review) :
  Permalink r ∈ seen ++ (Permalink <$> l1) ->
  filterNew seen (l1 ++ r :: l2) = filterNew seen (l1 ++ l2).
Proof.
  revert seen. induction l1 as [|b l1 IH]; intros seen Hr; simpl.
  - rewrite app_nil_r in Hr. by rewrite decide_True.
  - rewrite fmap_cons, cons_middle, app_assoc in Hr.
    destruct (decide (Permalink b ∈ seen)) as [Hb|Hb].
    + apply IH. rewrite !elem_of_app, list_elem_of_singleton in Hr.
      rewrite elem_of_app. destruct Hr as [[?| ->]|?]; auto.
    + f_equal. by apply IH.
Qed.

Lemma fault_free_reserved (db : DB) : fault_free db -> no_rows_reserved db.
Proof. intros H. eapply Forall_impl; [exact H|]. by intros f ->. Qed.

(** When every call to the store goes through, [SaveReviews] is [filterNew]
    on the permalinks on record, and records what it returns. *)
Lemma SaveReviews_fault_free (reviews : Reviews) (db : DB) :
  fault_free db ->
  exists db',
    SaveReviews reviews db = (db', (filterNew (permalinks db) reviews, None))
    /\ rows db' = rows db
                  ++ identity_records (serial db) (filterNew (permalinks db) reviews)
    /\ fault_free db'.
Proof.
  intros Hfree.
  destruct (SaveReviews_loop_trace reviews [] db (fault_free_reserved db Hfree))
    as (db' & post' & err & k & Hloop & Hpost & Hrows & Hall & Hf).
  destruct (Hf Hfree) as [-> Hfree']. rewrite (Hall eq_refl) in *.
  exists db'. unfold SaveReviews. rewrite Hloop, Hpost. done.
Qed.

(** C1, for an input without two reviews under one permalink: on a store
    that holds none of the permalinks of the input and whose calls all go
    through, the first pass returns the input as it is and inserts the
    identity record of every review, and a second pass on the same input
    returns the empty sequence and inserts nothing. *)
Theorem SaveReviews_twice (reviews : Reviews) (db : DB) :
  fault_free db ->
  NoDup (Permalink <$> reviews) ->
  (forall r, r ∈ reviews -> Permalink r ∉ permalinks db) ->
  exists db1 db2,
    SaveReviews reviews db = (db1, (reviews, None))
    /\ rows db1 = rows db ++ identity_records (serial db) reviews
    /\ SaveReviews reviews db1 = (db2, ([], None))
    /\ rows db2 = rows db1.
Proof.
  intros Hfree Hnd Hfresh.
  destruct (SaveReviews_fault_free reviews db Hfree) as (db1 & Hrun1 & Hrows1 & Hfree1).
  rewrite (filterNew_fresh _ _ Hnd Hfresh) in Hrun1, Hrows1.
  destruct (SaveReviews_fault_free reviews db1 Hfree1) as (db2 & Hrun2 & Hrows2 & _).
  assert (filterNew (permalinks db1) reviews = []) as Hnone.
  { apply filterNew_seen. intros r Hr. unfold permalinks. rewrite Hrows1, fmap_app.
    apply elem_of_app. right. rewrite permalinks_identity_records.
    by apply list_elem_of_fmap_2. }
  rewrite Hnone in Hrun2, Hrows2. simpl in Hrows2. rewrite app_nil_r in Hrows2.
  by exists db1, db2.
Qed.

Lemma SaveReviews_twice_witness :
  exists db1 db2,
    SaveReviews [review_1; review_2] db_empty = (db1, ([review_1; review_2], None))
    /\ rows db1 = [identity_record 1 review_1; identity_record 2 review_2]
    /\ SaveReviews [review_1; review_2] db1 = (db2, ([], None))
    /\ rows db2 = rows db1.
Proof.
  apply (SaveReviews_twice [review_1; review_2] db_empty).
  - constructor.
  - apply (bool_decide_unpack _). vm_compute. exact I.
  - intros r _. apply not_elem_of_nil.
Defined.

(** C1, as stated, fails on an input with two reviews under one permalink:
    the store holds neither permalink, yet the first pass returns the first
    review only and inserts no identity record for the second one. *)
Lemma SaveReviews_twice_duplicate_input :
  (forall r, r ∈ [review_1; review_1_again] -> Permalink r ∉ permalinks db_empty)
  /\ fault_free db_empty
  /\ (SaveReviews [review_1; review_1_again] db_empty).2.1 = [review_1]
  /\ (SaveReviews [review_1; review_1_again] db_empty).2.1 <> [review_1; review_1_again]
  /\ rows (SaveReviews [review_1; review_1_again] db_empty).1 = [identity_record 1 review_1].
Proof.
  split; [intros r _; apply not_elem_of_nil|].
  split; [constructor|].
  split; [reflexivity|]. split; [|reflexivity].
  vm_compute. discriminate.
Qed.

(** ** SaveReviews: failures *)

Lemma SaveReviews_loop_app (l1 l2 postReviews : Reviews) (db : DB) :
  SaveReviews_loop (l1 ++ l2) postReviews db =
  match SaveReviews_loop l1 postReviews db with
  | (db1, (post1, None)) => SaveReviews_loop l2 post1 db1
  | aborted => aborted
  end.
Proof.
  revert postReviews db. induction l1 as [|r l1 IH]; intros post db; simpl; [done|].
  destruct (SaveReviews_body r post db) as [db1 [post1 [e|]]]; [done | apply IH].
Qed.

(** C7: when the lookup or the insert for a candidate fails, the call
    returns with that error, whatever candidates follow, and the table is as
    the earlier candidates left it, their identity records included. *)
Theorem SaveReviews_aborts (before after : Reviews) (review : Review)
    (db db1 : DB) (out1 : Reviews) (e : error) :
  no_rows_reserved db ->
  SaveReviews before db = (db1, (out1, None)) ->
  (exists fs, faults db1 = Some e :: fs)
  \/ (exists fs, faults db1 = None :: Some e :: fs /\ Permalink review ∉ permalinks db1) ->
  exists db',
    SaveReviews (before ++ review :: after) db = (db', (out1, Some e))
    /\ rows db' = rows db1
    /\ rows db1 = rows db ++ identity_records (serial db) out1.
Proof.
  intros Hres Hbefore Hfail.
  assert (rows db1 = rows db ++ identity_records (serial db) out1) as Hrows.
  { destruct (SaveReviews_loop_trace before [] db Hres)
      as (db'' & post' & err & k & Hloop & Hpost & Hrows & _).
    unfold SaveReviews in Hbefore. rewrite Hloop in Hbefore.
    injection Hbefore as -> -> ->. by rewrite Hpost. }
  assert (no_rows_reserved db1) as Hres1.
  { clear Hfail Hrows. unfold SaveReviews in Hbefore.
    revert db out1 Hres Hbefore. generalize (@nil Review).
    induction before as [|r before IH]; intros post db out1 Hres Hrun; simpl in Hrun.
    - by injection Hrun as <- _.
    - destruct (SaveReviews_body_cases r post db Hres)
        as (db2 & post2 & err2 & Hbody & Hres2 & _).
      rewrite Hbody in Hrun. destruct err2; [done|]. by eapply IH. }
  unfold SaveReviews in *. rewrite SaveReviews_loop_app, Hbefore.
  cbn [SaveReviews_loop]. unfold SaveReviews_body, SaveReviews_insert, QueryRow_Scan, Exec_INSERT, next_fault.
  destruct Hfail as [(fs & Hfs) | (fs & Hfs & Hnew)]; rewrite Hfs.
  - unfold no_rows_reserved in Hres1. rewrite Hfs in Hres1.
    apply Forall_cons in Hres1 as [He _].
    destruct (String.eqb_spec e ErrNoRows) as [->|Hne]; [done|]. simpl.
    eexists. split; [reflexivity|]. done.
  - simpl. pose proof (find_permalink (Permalink review) (rows db1)) as Hfind.
    destruct (List.find _ (rows db1)); [done|]. simpl.
    eexists. split; [reflexivity|]. done.
Qed.

Lemma SaveReviews_aborts_witness :
  (exists db',
     SaveReviews [review_1; review_2; review_3] db_lookup_fails
     = (db', ([review_1], Some "pq: connection reset"))
     /\ rows db' = [identity_record 1 review_1])
  /\ (exists db',
        SaveReviews [review_1; review_2; review_3] db_insert_fails
        = (db', ([review_1], Some "pq: disk full"))
        /\ rows db' = [identity_record 1 review_1]).
Proof.
  split.
  - destruct (SaveReviews_aborts [review_1] [review_3] review_2 db_lookup_fails
                (mkDB [identity_record 1 review_1] 2 [Some "pq: connection reset"])
                [review_1] "pq: connection reset") as (db' & Hrun & Hrows & _).
    + unfold no_rows_reserved. simpl. repeat constructor; discriminate.
    + reflexivity.
    + left. by eexists.
    + exists db'. split; [exact Hrun | exact Hrows].
  - destruct (SaveReviews_aborts [review_1] [review_3] review_2 db_insert_fails
                (mkDB [identity_record 1 review_1] 2 [None; Some "pq: disk full"])
                [review_1] "pq: disk full") as (db' & Hrun & Hrows & _).
    + unfold no_rows_reserved. simpl. repeat constructor; discriminate.
    + reflexivity.
    + right. eexists. split; [reflexivity|].
      apply (bool_decide_unpack _). vm_compute. exact I.
    + exists db'. split; [exact Hrun | exact Hrows].
Defined.

(** ** SaveReviews: one record per permalink *)

(** C10: on a table with at most one record per permalink, a pass leaves at
    most one record per permalink, however it ends; the records it inserts
    are those of the reviews it returns, a subsequence of the input.  When it
    returns without error, the first review of the input under a permalink
    that was not on record is among the returned ones; and when every call
    goes through, a later review under a permalink met earlier in the input
    changes nothing: the pass returns and records what it does without it. *)
Theorem SaveReviews_one_record_per_permalink (reviews : Reviews) (db : DB) :
  no_rows_reserved db ->
  NoDup (permalinks db) ->
  exists db' out err,
    SaveReviews reviews db = (db', (out, err))
    /\ NoDup (permalinks db')
    /\ rows db' = rows db ++ identity_records (serial db) out
    /\ out `sublist_of` reviews
    /\ (err = None ->
        forall before r after,
          reviews = before ++ r :: after ->
          Permalink r ∉ permalinks db ->
          Permalink r ∉ (Permalink <$> before) ->
          r ∈ out)
    /\ (fault_free db ->
        err = None
        /\ forall l1 r l2,
             reviews = l1 ++ r :: l2 ->
             Permalink r ∈ (Permalink <$> l1) ->
             exists db'',
               SaveReviews (l1 ++ l2) db = (db'', (out, None))
               /\ rows db'' = rows db').
Proof.
  intros Hres Hnd.
  destruct (SaveReviews_loop_trace reviews [] db Hres)
    as (db' & post' & err & k & Hloop & Hpost & Hrows & Hall & Hf).
  simpl in Hpost. subst post'.
  exists db', (filterNew (permalinks db) (take k reviews)), err.
  split; [done|]. split.
  { unfold permalinks at 1. rewrite Hrows, fmap_app, permalinks_identity_records.
    by apply filterNew_NoDup. }
  split; [done|]. split.
  { etrans; [apply filterNew_sublist | apply sublist_take]. }
  split.
  - intros Herr before r after -> Hnew Hfirst. rewrite (Hall Herr).
    by apply filterNew_first.
  - intros Hfree. destruct (Hf Hfree) as [-> _]. split; [done|].
    intros l1 r l2 -> Hdup. rewrite (Hall eq_refl).
    destruct (SaveReviews_fault_free (l1 ++ l2) db Hfree) as (db'' & Hrun' & Hrows' & _).
    exists db''. rewrite (Hall eq_refl) in Hrows.
    rewrite filterNew_drop_duplicate in * by (apply elem_of_app; by right).
    split; [done|]. by rewrite Hrows, Hrows'.
Qed.

Lemma SaveReviews_one_record_per_permalink_witness :
  exists db',
    SaveReviews [review_1; review_2; review_1_again] db_empty
    = (db', ([review_1; review_2], None))
    /\ rows db' = [identity_record 1 review_1; identity_record 2 review_2]
    /\ NoDup (permalinks db').
Proof.
  destruct (SaveReviews_one_record_per_permalink
              [review_1; review_2; review_1_again] db_empty)
    as (db' & out & err & Hrun & Hnd & Hrows & _).
  - constructor.
  - constructor.
  - exists db'.
    change (SaveReviews [review_1; review_2; review_1_again] db_empty)
      with (mkDB [identity_record 1 review_1; identity_record 2 review_2] 3 [],
            ([review_1; review_2], @None error)) in Hrun.
    injection Hrun as <- <- <-. split; [reflexivity|]. split; [reflexivity | exact Hnd].
Defined.

(** ** PostReview *)




(** ** NewConfig *)

(** C8, as the code has it: in the configuration [NewConfig] returns without
    error, the bot name, the application id, the webhook URI and the locale
    are each the value of their environment variable (JON_SNOW_BOT_NAME,
    JON_SNOW_APP_ID, JON_SNOW_SLACK_HOOK, JON_SNOW_LOCATION) when that is not
    empty, and else the value of the file; the review count, the icon and
    the message text are the values of the file. *)
Theorem NewConfig_overrides (env : Env) (path : string) (config : Config) :
  NewConfig env path = (config, None) ->
  exists data file,
    ioutil_ReadFile env path = inl data
    /\ yaml_Unmarshal env data = (file, None)
    /\ BotName config = overridden (os_Getenv env "JON_SNOW_BOT_NAME") (BotName file)
    /\ AppId config = overridden (os_Getenv env "JON_SNOW_APP_ID") (AppId file)
    /\ WebHookUri config = overridden (os_Getenv env "JON_SNOW_SLACK_HOOK") (WebHookUri file)
    /\ Location config = overridden (os_Getenv env "JON_SNOW_LOCATION") (Location file)
    /\ ReviewCount config = ReviewCount file
    /\ IconEmoji config = IconEmoji file
    /\ MessageText config = MessageText file.
Proof.
  unfold NewConfig. intros Hrun.
  destruct (ioutil_ReadFile env path) as [data|] eqn:Hread; [|done].
  destruct (yaml_Unmarshal env data) as [file [err|]] eqn:Hyaml; [done|].
  exists data, file. split; [done|]. split; [done|].
  destruct ((MAX_REVIEW_NUM <? ReviewCount file)%Z || (ReviewCount file <? 1)%Z); [done|].
  destruct (sql_Open env _); [done|]. destruct (db_Ping env); [done|].
  unfold overridden.
  destruct (os_Getenv env "JON_SNOW_BOT_NAME" =? "")%string;
    destruct (os_Getenv env "JON_SNOW_APP_ID" =? "")%string;
    destruct (os_Getenv env "JON_SNOW_SLACK_HOOK" =? "")%string;
    destruct (os_Getenv env "JON_SNOW_LOCATION" =? "")%string;
    simpl in Hrun;
    (match type of Hrun with context [String.eqb ?a ""] => destruct (String.eqb a "") end;
     [done|]);
    destruct (http_Get env _) as [code|]; try done;
    destruct (code =? 404)%Z; try done;
    injection Hrun as <-; done.
Qed.

Lemma NewConfig_overrides_witness :
  exists config,
    NewConfig (env_all_set "snow") "./config.yml" = (config, None)
    /\ BotName config = "snow" /\ AppId config = "snow"
    /\ WebHookUri config = "snow" /\ Location config = "snow"
    /\ ReviewCount config = 2%Z
    /\ IconEmoji config = ":snowman:"
    /\ MessageText config = "New reviews".
Proof.
  eexists. split; [reflexivity|].
  destruct (NewConfig_overrides (env_all_set "snow") "./config.yml" _ eq_refl)
    as (data & file & _ & Hfile & Hbot & Happ & Hhook & Hloc & Hcount & Hicon & Htext).
  injection Hfile as <-.
  split; [exact Hbot|]. split; [exact Happ|]. split; [exact Hhook|].
  split; [exact Hloc|]. split; [exact Hcount|]. split; [exact Hicon | exact Htext].
Defined.

(** C8, as stated, fails for the icon and for the message text: whatever
    the name of an environment variable, a non-empty value of it does not
    take the place of the value of the file. *)
Lemma NewConfig_icon_and_text_from_file :
  ~ (exists name, forall env path config,
        NewConfig env path = (config, None) ->
        os_Getenv env name <> "" ->
        IconEmoji config = os_Getenv env name)
  /\ ~ (exists name, forall env path config,
          NewConfig env path = (config, None) ->
          os_Getenv env name <> "" ->
          MessageText config = os_Getenv env name).
Proof.
  split; intros [name H];
    specialize (H (env_all_set "snow") "./config.yml" _ eq_refl); simpl in H;
    by specialize (H ltac:(discriminate)).
Qed.

(** ** Fuel *)

(** The loops that are given [len(s)] steps never use them up: with more
    steps they return the same. *)

Lemma length_cutspace (s : string) : String.length (cutspace s) <= String.length s.
Proof.
  induction s as [|c s IH]; simpl; [lia|].
  destruct (Ascii.eqb c " "); simpl; lia.
Qed.

Lemma skip_loop_fuel (f1 f2 : nat) (value prefix : string) :
  String.length prefix <= f1 -> String.length prefix <= f2 ->
  skip_loop f1 value prefix = skip_loop f2 value prefix.
Proof.
  revert f2 value prefix. induction f1 as [|f1 IH]; intros f2 value prefix H1 H2.
  - destruct prefix; [by destruct f2 | simpl in H1; lia].
  - destruct prefix as [|p prefix]; [by destruct f2|].
    destruct f2 as [|f2]; [simpl in H2; lia|].
    simpl in H1, H2. simpl.
    pose proof (length_cutspace prefix) as Hcut.
    destruct (Ascii.eqb p " ").
    + destruct value as [|v value].
      * apply IH; lia.
      * destruct (negb (Ascii.eqb v " ")); [done | apply IH; lia].
    + destruct value as [|v value]; [done|].
      destruct (Ascii.eqb v p); [apply IH; lia | done].
Qed.

Lemma length_slice_from_le (n : nat) (s : string) :
  String.length (slice_from n s) <= String.length s.
Proof. rewrite length_slice_from. lia. Qed.

Lemma nextStdChunk_suffix (layout prefix suffix : string) (s : std) :
  nextStdChunk layout = (prefix, Some s, suffix) ->
  String.length suffix < String.length layout.
Proof.
  revert prefix. induction layout as [|c rest IH]; intros prefix; [done|].
  cbn [nextStdChunk].
  destruct (Ascii.eqb c "J" && strings_HasPrefix (String c rest) "January").
  { intros [= <- <- <-]. clear IH.
    pose proof (length_slice_from_le 6 rest) as Hle. simpl in *. lia. }
  destruct (Ascii.eqb c "1" && negb (strings_HasPrefix rest "5")).
  { intros [= <- <- <-]. simpl. lia. }
  destruct (Ascii.eqb c "2").
  { destruct (strings_HasPrefix (String c rest) "2006"); intros [= <- <- <-].
    - clear IH. pose proof (length_slice_from_le 3 rest) as Hle. simpl in *. lia.
    - simpl. lia. }
  destruct (nextStdChunk rest) as [[p o] suf] eqn:Hrest.
  intros [= <- -> <-]. specialize (IH p eq_refl). simpl. lia.
Qed.

Lemma parse_loop_fuel (f1 f2 : nat) (layout value : string) (year month day : Z) :
  String.length layout <= f1 -> String.length layout <= f2 ->
  parse_loop f1 layout value year month day = parse_loop f2 layout value year month day.
Proof.
  revert f2 layout value year month day.
  induction f1 as [|f1 IH]; intros f2 layout value year month day H1 H2.
  - assert (layout = "") as -> by (apply length_zero_empty; lia). by destruct f2.
  - destruct f2 as [|f2].
    { by assert (layout = "") as -> by (apply length_zero_empty; lia). }
    cbn [parse_loop].
    destruct (nextStdChunk layout) as [[prefix o] suffix] eqn:Hchunk.
    destruct (skip value prefix) as [value'|]; [|done]. cbn [mbind option_bind].
    destruct o as [s|]; [|done].
    apply nextStdChunk_suffix in Hchunk.
    destruct s.
    + destruct (lookup_from 0 longMonthNames value') as [[i v]|]; [|done].
      cbn [mbind option_bind]. apply IH; lia.
    + destruct (getnum value') as [[m v]|]; [|done]. cbn [mbind option_bind].
      destruct ((m <=? 0)%Z || (12 <? m)%Z); [done | apply IH; lia].
    + destruct (getnum value') as [[d v]|]; [|done]. cbn [mbind option_bind].
      apply IH; lia.
    + destruct ((String.length value' <? 4)%nat || negb (isDigit value' 0)); [done|].
      destruct (atoi (slice_to 4 value')) as [y|]; [|done]. cbn [mbind option_bind].
      apply IH; lia.
Qed.

Lemma RuneCount_loop_fuel (f1 f2 : nat) (s : string) :
  String.length s <= f1 -> String.length s <= f2 ->
  RuneCount_loop f1 s = RuneCount_loop f2 s.
Proof.
  revert f2 s. induction f1 as [|f1 IH]; intros f2 s H1 H2.
  - assert (s = "") as -> by (apply length_zero_empty; lia). by destruct f2.
  - destruct s as [|c s]; [by destruct f2|].
    destruct f2 as [|f2]; [simpl in H2; lia|].
    rewrite !RuneCount_loop_S by done. f_equal.
    pose proof (DecodeRune_size_bounds (String c s) ltac:(done)) as Hsize.
    apply IH; rewrite length_slice_from; simpl in *; lia.
Qed.

Lemma Count_loop_fuel (f1 f2 : nat) (s substr : string) :
  substr <> "" ->
  String.length s <= f1 -> String.length s <= f2 ->
  Count_loop f1 s substr = Count_loop f2 s substr.
Proof.
  intros Hsub. pose proof (length_pos_nonempty substr Hsub) as Hlen.
  revert f2 s. induction f1 as [|f1 IH]; intros f2 s H1 H2.
  - destruct f2 as [|f2]; [done|]. simpl.
    destruct (strings_Index s substr) as [i|] eqn:Hi; [|done].
    apply Index_Some in Hi as (_ & Hi & _). lia.
  - destruct f2 as [|f2]; simpl.
    + destruct (strings_Index s substr) as [i|] eqn:Hi; [|done].
      apply Index_Some in Hi as (_ & Hi & _). lia.
    + destruct (strings_Index s substr) as [i|] eqn:Hi; [|done].
      apply Index_Some in Hi as (_ & Hi & _).
      f_equal. apply IH; rewrite length_slice_from; lia.
Qed.

(** ** GetReview: the whole page *)

(** Every review read from a page carries the instant its block's date text
    parses to under the selected layout, and the reviews come out most
    recent first. *)
Lemma GetReview_Each_dates (config : Config) (doc : list Selection) (reviews out : Reviews) :
  GetReview_Each config doc reviews = Done out ->
  exists new,
    out = reviews ++ new
    /\ Forall (fun r => exists s, s ∈ doc
                 /\ time_Parse (timeForm config) (REVIEW_DATE_text s) = Some (UpdatedAt r))
              new.
Proof.
  revert reviews. induction doc as [|s doc IH]; intros reviews; simpl.
  - intros [= <-]. exists []. by rewrite app_nil_r.
  - pose proof (GetReview_each_cases config s reviews) as Hcases.
    destruct (time_Parse (timeForm config) (REVIEW_DATE_text s)) as [date|] eqn:Hdate.
    + destruct (strings_Split _ _ !! 0) as [msg|].
      * destruct Hcases as (review & -> & _ & Hupd & _). simpl.
        intros (new & -> & Hnew)%IH. exists (review :: new).
        split; [by rewrite <- app_assoc|].
        constructor.
        -- exists s. split; [left | by rewrite Hupd].
        -- eapply Forall_impl; [exact Hnew|].
           intros r (s' & Hs' & Hr). exists s'. split; [by right | done].
      * by rewrite Hcases.
    + rewrite Hcases. simpl. intros (new & -> & Hnew)%IH. exists new. split; [done|].
      eapply Forall_impl; [exact Hnew|].
      intros r (s' & Hs' & Hr). exists s'. split; [by right | done].
Qed.


(* ===================================================================== *)
(** * Part III: further properties of the code                            *)
(* ===================================================================== *)

(** ** parseRate *)

(** X1: whatever the style string, the rating is one of six texts: empty,
    one to four [:star:], or five [:star2:]. *)
Theorem parseRate_range (message : string) : parseRate message ∈ ratings.
Proof.
  unfold parseRate, ratings.
  repeat (match goal with |- context [strings_Contains ?m ?t] =>
            destruct (strings_Contains m t) end);
    simpl; repeat first [apply list_elem_of_here | apply list_elem_of_further].
Qed.

(** ** NewConfig *)

(** Past the connection to the database, [NewConfig] comes down to the
    checks on the application id, made on the id as overridden. *)
Lemma NewConfig_after_connect (env : Env) (path data : string) (file : Config) :
  ioutil_ReadFile env path = inl data ->
  yaml_Unmarshal env data = (file, None) ->
  (1 <= ReviewCount file <= 40)%Z ->
  sql_Open env (pq_ParseURL env (os_Getenv env "DATABASE_URL") +:+ " sslmode=require") = None ->
  db_Ping env = None ->
  let config := {|
    AppId := overridden (os_Getenv env "JON_SNOW_APP_ID") (AppId file);
    ReviewCount := ReviewCount file;
    BotName := overridden (os_Getenv env "JON_SNOW_BOT_NAME") (BotName file);
    IconEmoji := IconEmoji file;
    MessageText := MessageText file;
    WebHookUri := overridden (os_Getenv env "JON_SNOW_SLACK_HOOK") (WebHookUri file);
    Location := overridden (os_Getenv env "JON_SNOW_LOCATION") (Location file) |} in
  NewConfig env path =
  (config,
   if String.eqb (AppId config) "" then Some "Please Set Your Google Play App Id."
   else match http_Get env (BASE_URI +:+ "/store/apps/details?id=" +:+ AppId config) with
        | inr err => Some err
        | inl StatusCode =>
            if (StatusCode =? 404)%Z
            then Some ("AppID: " +:+ AppId config +:+ " is not exists")
            else None
        end).
Proof.
  intros Hread Hyaml Hcount Hopen Hping. unfold NewConfig.
  rewrite Hread, Hyaml.
  replace ((MAX_REVIEW_NUM <? ReviewCount file)%Z || (ReviewCount file <? 1)%Z)
    with false by (unfold MAX_REVIEW_NUM; symmetry; apply orb_false_intro; lia).
  rewrite Hopen, Hping. unfold overridden.
  destruct file as [app count bot icon text hook loc]. simpl.
  destruct (os_Getenv env "JON_SNOW_BOT_NAME" =? "")%string;
    destruct (os_Getenv env "JON_SNOW_APP_ID" =? "")%string;
    destruct (os_Getenv env "JON_SNOW_SLACK_HOOK" =? "")%string;
    destruct (os_Getenv env "JON_SNOW_LOCATION" =? "")%string; simpl;
    (match goal with |- context [String.eqb ?a ""] => destruct (String.eqb a "") end;
     [reflexivity|]);
    destruct (http_Get env _) as [code|]; try reflexivity;
    destruct (code =? 404)%Z; reflexivity.
Qed.

(** What a configuration returned without error has gone through. *)
Lemma NewConfig_success (env : Env) (path : string) (config : Config) :
  NewConfig env path = (config, None) ->
  exists data file,
    ioutil_ReadFile env path = inl data
    /\ yaml_Unmarshal env data = (file, None)
    /\ (1 <= ReviewCount file <= 40)%Z
    /\ sql_Open env (pq_ParseURL env (os_Getenv env "DATABASE_URL") +:+ " sslmode=require") = None
    /\ db_Ping env = None.
Proof.
  unfold NewConfig.
  destruct (ioutil_ReadFile env path) as [data|] eqn:Hread; [|done].
  destruct (yaml_Unmarshal env data) as [file [err|]] eqn:Hyaml; [done|].
  destruct (Z.ltb_spec MAX_REVIEW_NUM (ReviewCount file)); [done|].
  destruct (Z.ltb_spec (ReviewCount file) 1); [done|]. simpl "||".
  destruct (sql_Open env _) eqn:Hopen; [done|].
  destruct (db_Ping env) eqn:Hping; [done|].
  intros _. exists data, file. unfold MAX_REVIEW_NUM in *. repeat split; (done || lia).
Qed.


(** X2: a configuration that [NewConfig] returns without error has a review
    count from 1 to 40 and a non-empty application id, and the storefront
    answered the request for that id, with a status other than 404. *)
Theorem NewConfig_returns_valid (env : Env) (path : string) (config : Config) :
  NewConfig env path = (config, None) ->
  (1 <= ReviewCount config <= 40)%Z
  /\ AppId config <> ""
  /\ exists StatusCode,
       http_Get env (BASE_URI +:+ "/store/apps/details?id=" +:+ AppId config)
       = inl StatusCode
       /\ StatusCode <> 404%Z.
Proof.
  intros Hrun.
  destruct (NewConfig_success env path config Hrun)
    as (data & file & Hread & Hyaml & Hcount & Hopen & Hping).
  rewrite (NewConfig_after_connect env path data file Hread Hyaml Hcount Hopen Hping) in Hrun.
  injection Hrun as <- Herr. simpl in *.
  split; [done|].
  destruct (String.eqb_spec (overridden (os_Getenv env "JON_SNOW_APP_ID") (AppId file)) "");
    [done|].
  split; [done|].
  destruct (http_Get env _) as [code|]; [|done].
  exists code. split; [done|].
  destruct (Z.eqb_spec code 404); done.
Qed.

Lemma NewConfig_returns_valid_witness :
  (1 <= ReviewCount config_en <= 40)%Z /\ AppId config_en <> "".
Proof.
  destruct (NewConfig_returns_valid (env_all_set "") "./config.yml" config_en eq_refl)
    as (Hcount & Happ & _).
  split; [exact Hcount | exact Happ].
Defined.

(** X3: once the file is read with a review count in range and the database
    answers, the check for a missing application id is made on the id as
    overridden: an id left empty in the file is made up for by
    JON_SNOW_APP_ID, the error "Please Set Your Google Play App Id." is
    returned exactly when both are empty, and it is the id as overridden
    that the storefront is asked for. *)
Theorem NewConfig_app_id_check (env : Env) (path data : string) (file : Config) :
  ioutil_ReadFile env path = inl data ->
  yaml_Unmarshal env data = (file, None) ->
  (1 <= ReviewCount file <= 40)%Z ->
  sql_Open env (pq_ParseURL env (os_Getenv env "DATABASE_URL") +:+ " sslmode=require") = None ->
  db_Ping env = None ->
  let appId := overridden (os_Getenv env "JON_SNOW_APP_ID") (AppId file) in
  (appId = "" <-> AppId file = "" /\ os_Getenv env "JON_SNOW_APP_ID" = "")
  /\ (appId = "" ->
      (NewConfig env path).2 = Some "Please Set Your Google Play App Id.")
  /\ (appId <> "" ->
      (NewConfig env path).2 =
      match http_Get env (BASE_URI +:+ "/store/apps/details?id=" +:+ appId) with
      | inr err => Some err
      | inl StatusCode =>
          if (StatusCode =? 404)%Z then Some ("AppID: " +:+ appId +:+ " is not exists")
          else None
      end).
Proof.
  intros Hread Hyaml Hcount Hopen Hping appId.
  rewrite (NewConfig_after_connect env path data file Hread Hyaml Hcount Hopen Hping).
  simpl. fold appId. split; [|split].
  - subst appId. unfold overridden.
    destruct (String.eqb_spec (os_Getenv env "JON_SNOW_APP_ID") "");
      (split; [intros ?; by split | by intros [? ?]]).
  - intros ->. done.
  - intros Hne. by destruct (String.eqb_spec appId "").
Qed.

Lemma NewConfig_app_id_check_witness :
  (NewConfig (env_all_set "") "./config.yml").2 = None
  /\ (NewConfig (env_all_set "snow") "./config.yml").2 = None.
Proof.
  split.
  - destruct (NewConfig_app_id_check (env_all_set "") "./config.yml"
                "app_id: com.example.app" config_en eq_refl eq_refl)
      as (_ & _ & Hset); [simpl; lia | reflexivity | reflexivity |].
    rewrite Hset; [reflexivity | discriminate].
  - destruct (NewConfig_app_id_check (env_all_set "snow") "./config.yml"
                "app_id: com.example.app" config_en eq_refl eq_refl)
      as (_ & _ & Hset); [simpl; lia | reflexivity | reflexivity |].
    rewrite Hset; [reflexivity | discriminate].
Defined.

(** ** GetReview *)

Lemma Split_head_None (body link : string) :
  strings_Split body link !! 0 = None <-> link = "" /\ body = "".
Proof.
  destruct (decide (link = "")) as [->|Hlink].
  - rewrite Split_empty_sep. destruct (decide (body = "")) as [->|Hbody].
    + done.
    + rewrite runes_head by done. split; [done | by intros [_ ?]].
  - rewrite Split_head by done. split; [done | by intros [? _]].
Qed.

Lemma date_parses_true (config : Config) (s : Selection) :
  date_parses config s = true <->
  exists date, time_Parse (timeForm config) (REVIEW_DATE_text s) = Some date.
Proof.
  unfold date_parses. destruct (time_Parse _ _) as [date|].
  - split; [by exists date | done].
  - split; [done | by intros [? ?]].
Qed.

(** The callback on one block, by whether the date parses and whether the
    block has link text or body text. *)
Lemma GetReview_each_outcome (config : Config) (s : Selection) (reviews : Reviews) :
  (date_parses config s = false /\ GetReview_each config s reviews = Done reviews)
  \/ (date_parses config s = true
      /\ REVIEW_LINK_text s = "" /\ REVIEW_MESSAGE_text s = ""
      /\ GetReview_each config s reviews = Panic "index out of range")
  \/ (date_parses config s = true
      /\ ~ (REVIEW_LINK_text s = "" /\ REVIEW_MESSAGE_text s = "")
      /\ exists review,
           GetReview_each config s reviews = Done (reviews ++ [review])
           /\ review_from config s review).
Proof.
  unfold GetReview_each, date_parses, review_from.
  destruct (time_Parse _ _) as [date|]; [|by left]. right.
  rewrite index_head.
  destruct (strings_Split _ _ !! 0) as [msg|] eqn:Hsplit.
  - right. split; [done|]. split.
    { intros Hempty. apply Split_head_None in Hempty. congruence. }
    eexists. split; [reflexivity|]. simpl.
    repeat split. destruct (REVIEW_TITLE_text s); by simpl.
  - left. apply Split_head_None in Hsplit as [? ?]. done.
Qed.

(** The blocks of a page in turn: the callback panics on the first block
    that has a date but neither link text nor body text; without such a
    block, the page yields one review for each block whose date parses, in
    the order of the page. *)
Lemma GetReview_Each_outcome (config : Config) (doc : list Selection) (reviews : Reviews) :
  ((exists s, s ∈ doc /\ date_parses config s = true
              /\ REVIEW_LINK_text s = "" /\ REVIEW_MESSAGE_text s = "")
   /\ GetReview_Each config doc reviews = Panic "index out of range")
  \/ ((forall s, s ∈ doc -> date_parses config s = true ->
                 ~ (REVIEW_LINK_text s = "" /\ REVIEW_MESSAGE_text s = ""))
      /\ exists new,
           GetReview_Each config doc reviews = Done (reviews ++ new)
           /\ Forall2 (review_from config) (List.filter (date_parses config) doc) new).
Proof.
  revert reviews. induction doc as [|s doc IH]; intros reviews.
  { right. split; [by intros s Hs%elem_of_nil|]. exists []. simpl.
    by rewrite app_nil_r. }
  simpl.
  destruct (GetReview_each_outcome config s reviews)
    as [(Hno & ->) | [(Hyes & Hlink & Hbody & ->) | (Hyes & Hok & review & -> & Hfrom)]];
    simpl.
  - rewrite Hno.
    destruct (IH reviews) as [((c & Hc & Hcrash) & ->) | (Hnone & new & -> & Hnew)].
    + left. split; [|done]. exists c. split; [by right | done].
    + right. split; [|by exists new].
      intros c [->|Hc]%elem_of_cons; [congruence | by apply Hnone].
  - left. split; [|done]. exists s. split; [left | done].
  - rewrite Hyes.
    destruct (IH (reviews ++ [review]))
      as [((c & Hc & Hcrash) & ->) | (Hnone & new & -> & Hnew)].
    + left. split; [|done]. exists c. split; [by right | done].
    + right. split.
      * intros c [->|Hc]%elem_of_cons; [done | by apply Hnone].
      * exists (review :: new). split; [by rewrite <- app_assoc|]. by constructor.
Qed.

(** X4: reading a page panics exactly when some block has a date that
    parses but neither link text nor body text; on every other page
    [GetReview] returns. *)
Theorem GetReview_parse_panics_iff (config : Config) (doc : list Selection) :
  ((exists msg, GetReview_parse config doc = Panic msg) <->
   exists s, s ∈ doc /\ date_parses config s = true
             /\ REVIEW_LINK_text s = "" /\ REVIEW_MESSAGE_text s = "")
  /\ ((forall msg, GetReview_parse config doc <> Panic msg) ->
      exists reviews, GetReview_parse config doc = Done reviews).
Proof.
  unfold GetReview_parse.
  destruct (GetReview_Each_outcome config doc [])
    as [(Hcrash & ->) | (Hnone & new & -> & Hnew)]; simpl.
  - split; [split; [done | by eexists] | intros H; by destruct (H "index out of range")].
  - rewrite sort_Sort_isort. split; [|by eexists].
    split; [by intros [msg ?]|].
    intros (s & Hs & Hdate & Hempty). by destruct (Hnone s Hs Hdate).
Qed.

(** A page that is read without panic: the reviews before they are sorted. *)
Lemma GetReview_parse_trace (config : Config) (doc : list Selection) (reviews : Reviews) :
  GetReview_parse config doc = Done reviews ->
  exists parsed,
    reviews = isort parsed
    /\ Forall2 (review_from config) (List.filter (date_parses config) doc) parsed.
Proof.
  unfold GetReview_parse.
  destruct (GetReview_Each_outcome config doc [])
    as [(Hcrash & ->) | (Hnone & new & -> & Hnew)]; simpl; [done|].
  rewrite sort_Sort_isort. intros [= <-]. by exists new.
Qed.

(** X5: the reviews [GetReview] returns for a page are, up to their order,
    one review for each block whose date parses, built from that block: its
    author text, the date parsed, its permalink ([""] when the attribute is
    missing), its title or "No title provided", the first piece of the body
    split at the link text, and the rating of its style attribute.  They come
    most recent first, and none has an empty title. *)
Theorem GetReview_parse_reviews (config : Config) (doc : list Selection)
    (reviews : Reviews) :
  GetReview_parse config doc = Done reviews ->
  exists parsed,
    reviews ≡ₚ parsed
    /\ Forall2 (review_from config) (List.filter (date_parses config) doc) parsed
    /\ length reviews = length (List.filter (date_parses config) doc)
    /\ descending reviews
    /\ Forall (fun r => Title r <> "") reviews.
Proof.
  intros Hrun.
  destruct (GetReview_parse_trace config doc reviews Hrun) as (new & -> & Hnew).
  exists new.
  split; [apply isort_Permutation|]. split; [done|].
  split; [by rewrite (Permutation_length (isort_Permutation new)),
            (Forall2_length _ _ _ Hnew)|].
  split; [apply isort_descending|].
  rewrite isort_Permutation. clear Hrun.
  induction Hnew as [|s r doc' new' Hfrom _ IH]; [constructor|].
  constructor; [|done].
  destruct Hfrom as (_ & _ & _ & Htitle & _). rewrite Htitle.
  by destruct (decide (REVIEW_TITLE_text s = "")).
Qed.

Lemma GetReview_parse_reviews_witness :
  exists review,
    GetReview_parse config_en [block_no_date; block_read_more] = Done [review]
    /\ review_from config_en block_read_more review
    /\ Title review = "No title provided".
Proof.
  eexists. split; [reflexivity|].
  destruct (GetReview_parse_reviews config_en [block_no_date; block_read_more] _ eq_refl)
    as (parsed & Hperm & Hfrom & _).
  apply Permutation_singleton_l in Hperm. subst parsed.
  apply Forall2_cons_1 in Hfrom as [Hfrom _]. split; [exact Hfrom | reflexivity].
Defined.

(** X6: a block whose date does not parse under the selected layout changes
    nothing: the page yields what it yields without the block. *)
Theorem GetReview_parse_skips_unparsed (config : Config)
    (before after : list Selection) (s : Selection) :
  date_parses config s = false ->
  GetReview_parse config (before ++ s :: after) = GetReview_parse config (before ++ after).
Proof.
  intros Hdate. unfold GetReview_parse. rewrite GetReview_Each_skip; [done|].
  unfold date_parses in Hdate. by destruct (time_Parse _ _).
Qed.

Lemma GetReview_parse_skips_unparsed_witness :
  GetReview_parse config_en [block_read_more; block_no_date]
  = GetReview_parse config_en [block_read_more].
Proof.
  apply (GetReview_parse_skips_unparsed config_en [block_read_more] [] block_no_date).
  reflexivity.
Defined.

(** X7: under a locale other than "zh-tw" and "en", a page whose blocks all
    have date text yields no review at all, and no error either. *)
Theorem GetReview_parse_other_locale (config : Config) (doc : list Selection) :
  Location config <> "zh-tw" -> Location config <> "en" ->
  (forall s, s ∈ doc -> REVIEW_DATE_text s <> "") ->
  GetReview_parse config doc = Done [].
Proof.
  intros Hzh Hen Hdates. unfold GetReview_parse.
  assert (GetReview_Each config doc [] = Done []) as ->; [|done].
  generalize (@nil Review).
  induction doc as [|s doc IH]; intros reviews; simpl; [done|].
  rewrite GetReview_each_other_locale by (try done; apply Hdates; left). simpl.
  apply IH. intros s' Hs'. apply Hdates. by right.
Qed.

Lemma GetReview_parse_other_locale_witness :
  GetReview_parse config_fr [block_read_more; block_no_link] = Done [].
Proof.
  apply GetReview_parse_other_locale; [discriminate | discriminate |].
  intros s Hs. apply list_elem_of_In in Hs. simpl in Hs.
  destruct Hs as [<-|[<-|[]]]; discriminate.
Defined.

(** X8: under the locales "zh-tw" and "en" a block without date text is
    skipped, so every review returned stems from a block that has date
    text. *)
Theorem GetReview_parse_needs_date_text (config : Config) (doc : list Selection)
    (reviews : Reviews) :
  Location config = "zh-tw" \/ Location config = "en" ->
  GetReview_parse config doc = Done reviews ->
  (forall s, REVIEW_DATE_text s = "" -> date_parses config s = false)
  /\ Forall (fun r => exists s, s ∈ doc /\ REVIEW_DATE_text s <> ""
                                /\ review_from config s r) reviews.
Proof.
  intros Hloc Hrun.
  assert (forall s, REVIEW_DATE_text s = "" -> date_parses config s = false) as Hempty.
  { intros s Hs. unfold date_parses, timeForm. rewrite Hs.
    by destruct Hloc as [-> | ->]. }
  split; [done|].
  destruct (GetReview_parse_trace config doc reviews Hrun) as (parsed & -> & Hfrom).
  rewrite isort_Permutation. clear Hrun.
  assert (forall s, s ∈ List.filter (date_parses config) doc ->
                    s ∈ doc /\ REVIEW_DATE_text s <> "") as Hin.
  { intros s Hs. apply list_elem_of_In, filter_In in Hs as [Hs Hdate].
    split; [by apply list_elem_of_In|]. intros Hno. rewrite (Hempty s Hno) in Hdate. done. }
  induction Hfrom as [|s r ss rs Hsr _ IH]; constructor.
  - exists s. destruct (Hin s) as [? ?]; [left|]. done.
  - apply IH. intros s' Hs'. apply Hin. by right.
Qed.

Lemma GetReview_parse_needs_date_text_witness :
  date_parses config_en block_no_date = false
  /\ GetReview_parse config_en [block_no_date] = Done [].
Proof.
  destruct (GetReview_parse_needs_date_text config_en [block_no_date] [])
    as [Hempty _]; [by right | reflexivity |].
  split; [by apply Hempty | reflexivity].
Defined.

(** ** The methods of Reviews and sort.Sort *)

(** X9: [Swap] on two indices of the slice exchanges the elements at them
    and leaves every other element and the length as they are; swapping
    again gives the slice back.  On an index outside the slice it panics. *)
Theorem Reviews_Swap_exchanges (r : Reviews) (i j : nat) :
  (i < length r -> j < length r ->
   exists r',
     Reviews_Swap r i j = Done r'
     /\ length r' = length r
     /\ r' !! i = r !! j
     /\ r' !! j = r !! i
     /\ (forall k, k <> i -> k <> j -> r' !! k = r !! k)
     /\ Reviews_Swap r' i j = Done r)
  /\ (length r <= i \/ length r <= j ->
      Reviews_Swap r i j = Panic "index out of range").
Proof.
  unfold Reviews_Swap, index. split.
  - intros Hi Hj.
    destruct (lookup_lt_is_Some_2 r i Hi) as [ri Hri].
    destruct (lookup_lt_is_Some_2 r j Hj) as [rj Hrj].
    rewrite Hri, Hrj. simpl. eexists. split; [reflexivity|].
    assert (<[j:=ri]> (<[i:=rj]> r) !! i = Some rj) as Hi'.
    { destruct (decide (i = j)) as [->|Hne].
      - rewrite list_lookup_insert_eq by (by rewrite length_insert). congruence.
      - rewrite list_lookup_insert_ne by done. by rewrite list_lookup_insert_eq. }
    assert (<[j:=ri]> (<[i:=rj]> r) !! j = Some ri) as Hj'.
    { by rewrite list_lookup_insert_eq by (by rewrite length_insert). }
    split; [by rewrite !length_insert|].
    split; [congruence|]. split; [congruence|]. split.
    + intros k Hki Hkj. by rewrite !list_lookup_insert_ne.
    + rewrite Hi', Hj'. simpl. f_equal. apply list_eq. intros k.
      destruct (decide (k = j)) as [->|Hkj].
      * rewrite list_lookup_insert_eq by (by rewrite !length_insert). done.
      * rewrite list_lookup_insert_ne by done.
        destruct (decide (k = i)) as [->|Hki].
        -- rewrite list_lookup_insert_eq by (by rewrite !length_insert). done.
        -- by rewrite !list_lookup_insert_ne.
  - intros [Hi|Hj].
    + apply lookup_ge_None in Hi. by rewrite Hi.
    + apply lookup_ge_None in Hj. rewrite Hj. by destruct (r !! i).
Qed.

Lemma Reviews_Swap_exchanges_witness :
  Reviews_Swap [review_1; review_2; review_3] 0 2 = Done [review_3; review_2; review_1]
  /\ Reviews_Swap [review_3; review_2; review_1] 0 2 = Done [review_1; review_2; review_3]
  /\ Reviews_Swap [review_1; review_2; review_3] 0 3 = Panic "index out of range".
Proof.
  destruct (Reviews_Swap_exchanges [review_1; review_2; review_3] 0 2) as [Hin _].
  destruct Hin as (r' & Hrun & _ & _ & _ & _ & Hback); [simpl; lia | simpl; lia |].
  change (Reviews_Swap [review_1; review_2; review_3] 0 2)
    with (Done [review_3; review_2; review_1]) in Hrun.
  injection Hrun as <-.
  split; [reflexivity|]. split; [exact Hback|].
  apply (Reviews_Swap_exchanges [review_1; review_2; review_3] 0 3). right. simpl. lia.
Defined.

(** X10: on indices of the slice, [Less] is a strict order by the Unix
    second of [UpdatedAt], later first: no element goes before itself, of two
    elements at most one goes before the other, and the relation is
    transitive; two elements are left unordered exactly when they share the
    second.  On an index outside the slice it panics. *)
Theorem Reviews_Less_strict (r : Reviews) (i j k : nat) (a b c : Review) :
  r !! i = Some a -> r !! j = Some b -> r !! k = Some c ->
  Reviews_Less r i i = Done false
  /\ (Reviews_Less r i j = Done true <-> (Unix (UpdatedAt b) < Unix (UpdatedAt a))%Z)
  /\ (Reviews_Less r i j = Done true -> Reviews_Less r j i = Done false)
  /\ (Reviews_Less r i j = Done true -> Reviews_Less r j k = Done true ->
      Reviews_Less r i k = Done true)
  /\ (Reviews_Less r i j = Done false /\ Reviews_Less r j i = Done false <->
      Unix (UpdatedAt a) = Unix (UpdatedAt b))
  /\ (forall n, length r <= n -> Reviews_Less r n i = Panic "index out of range"
                                 /\ Reviews_Less r i n = Panic "index out of range").
Proof.
  intros Hi Hj Hk. unfold Reviews_Less, index. rewrite Hi, Hj, Hk. simpl.
  split; [by rewrite Z.ltb_irrefl|].
  split; [split; [intros [= H%Z.ltb_lt]; done | intros H%Z.ltb_lt; by rewrite H]|].
  split; [intros [= H%Z.ltb_lt]; f_equal; apply Z.ltb_ge; lia|].
  split; [intros [= H1%Z.ltb_lt] [= H2%Z.ltb_lt]; f_equal; apply Z.ltb_lt; lia|].
  split.
  - split.
    + intros [[= H1%Z.ltb_ge] [= H2%Z.ltb_ge]]. lia.
    + intros ->. by rewrite Z.ltb_irrefl.
  - intros n Hn. apply lookup_ge_None in Hn. by rewrite Hn.
Qed.

Lemma Reviews_Less_strict_witness :
  Reviews_Less [review_1; review_2; review_3] 0 1 = Done true
  /\ Reviews_Less [review_1; review_2; review_3] 1 0 = Done false
  /\ Reviews_Less [review_1; review_2; review_3] 0 3 = Panic "index out of range".
Proof.
  destruct (Reviews_Less_strict [review_1; review_2; review_3] 0 1 2
              review_1 review_2 review_3 eq_refl eq_refl eq_refl)
    as (_ & Hlt & Hasym & _ & _ & Hout).
  assert (Reviews_Less [review_1; review_2; review_3] 0 1 = Done true) as H01.
  { apply Hlt. vm_compute. reflexivity. }
  split; [exact H01|]. split; [exact (Hasym H01)|].
  apply (Hout 3). simpl. lia.
Defined.


(** ** SaveReviews *)

Lemma SaveReviews_body_appends (review : Review) (postReviews : Reviews) (db : DB) :
  exists db' post' err,
    SaveReviews_body review postReviews db = (db', (post', err))
    /\ ((post' = postReviews /\ rows db' = rows db /\ serial db' = serial db)
        \/ (post' = postReviews ++ [review] /\ err = None
            /\ rows db' = rows db ++ [identity_record (serial db) review]
            /\ serial db' = Pos.succ (serial db))).
Proof.
  unfold SaveReviews_body, SaveReviews_insert, QueryRow_Scan, Exec_INSERT, next_fault.
  destruct db as [table next fs]. simpl.
  destruct fs as [|[e|] fs]; simpl.
  - destruct (List.find _ table); simpl; do 3 eexists; (split; [reflexivity|]); auto.
  - destruct (negb (e =? ErrNoRows)%string); simpl.
    + do 3 eexists. split; [reflexivity|]. auto.
    + destruct fs as [|[e'|] fs]; simpl; do 3 eexists; (split; [reflexivity|]); auto.
  - destruct (List.find _ table); simpl.
    + do 3 eexists. split; [reflexivity|]. auto.
    + destruct fs as [|[e'|] fs]; simpl; do 3 eexists; (split; [reflexivity|]); auto.
Qed.

Lemma SaveReviews_loop_appends (reviews postReviews : Reviews) (db : DB) :
  exists db' new err,
    SaveReviews_loop reviews postReviews db = (db', (postReviews ++ new, err))
    /\ new `sublist_of` reviews
    /\ rows db' = rows db ++ identity_records (serial db) new.
Proof.
  revert postReviews db. induction reviews as [|review reviews IH]; intros post db.
  { exists db, [], None. simpl. by rewrite !app_nil_r. }
  destruct (SaveReviews_body_appends review post db)
    as (db1 & post1 & err1 & Hbody & Hcases).
  simpl. rewrite Hbody.
  destruct Hcases as [(-> & Hrows & Hser) | (-> & -> & Hrows & Hser)].
  - destruct err1 as [e|].
    + exists db1, [], (Some e). rewrite !app_nil_r.
      split; [done|]. split; [apply sublist_nil_l | done].
    + destruct (IH post db1) as (db' & new & err & Hloop & Hsub & Hrows').
      exists db', new, err. split; [done|].
      split; [by apply sublist_cons|]. by rewrite Hrows', Hrows, Hser.
  - destruct (IH (post ++ [review]) db1) as (db' & new & err & Hloop & Hsub & Hrows').
    exists db', (review :: new), err.
    split; [by rewrite Hloop, <- app_assoc|].
    split; [by apply sublist_skip|].
    rewrite Hrows', Hrows, Hser. by rewrite <- app_assoc.
Qed.

(** X12: whatever the table and whatever the driver does, a pass only
    appends to the table: the rows it finds stay as they are, in place, and
    the rows it adds are the identity records of the reviews it returns, in
    their order and under consecutive ids; the reviews it returns are a
    subsequence of its input. *)
Theorem SaveReviews_appends_only (reviews : Reviews) (db : DB) :
  exists db' out err,
    SaveReviews reviews db = (db', (out, err))
    /\ out `sublist_of` reviews
    /\ rows db' = rows db ++ identity_records (serial db) out
    /\ length (rows db') = length (rows db) + length out.
Proof.
  destruct (SaveReviews_loop_appends reviews [] db) as (db' & new & err & Hloop & Hsub & Hrows).
  exists db', new, err. split; [done|]. split; [done|]. split; [done|].
  rewrite Hrows, length_app. f_equal.
  clear. generalize (serial db). induction new as [|r new IH]; intros id; simpl; [done|].
  by rewrite IH.
Qed.

(** After a pass in which every call goes through, every permalink of the
    input is on record. *)
Lemma SaveReviews_fault_free_covers (reviews : Reviews) (db : DB) :
  fault_free db ->
  exists db1 out1,
    SaveReviews reviews db = (db1, (out1, None))
    /\ fault_free db1
    /\ forall r, r ∈ reviews -> Permalink r ∈ permalinks db1.
Proof.
  intros Hfree.
  destruct (SaveReviews_fault_free reviews db Hfree) as (db1 & Hrun1 & Hrows1 & Hfree1).
  exists db1, (filterNew (permalinks db) reviews). split; [done|]. split; [done|].
  intros r Hr. unfold permalinks at 1.
  rewrite Hrows1, fmap_app, permalinks_identity_records.
  by apply filterNew_covers.
Qed.

(** X13: when every call to the store goes through, a pass leaves the
    permalink of every review of its input on record, whatever was on record
    before and whatever the input repeats; a second pass over the same input
    returns no review and adds no row. *)
Theorem SaveReviews_second_pass_empty (reviews : Reviews) (db : DB) :
  fault_free db ->
  exists db1 out1 db2,
    SaveReviews reviews db = (db1, (out1, None))
    /\ (forall r, r ∈ reviews -> Permalink r ∈ permalinks db1)
    /\ SaveReviews reviews db1 = (db2, ([], None))
    /\ rows db2 = rows db1.
Proof.
  intros Hfree.
  destruct (SaveReviews_fault_free_covers reviews db Hfree)
    as (db1 & out1 & Hrun1 & Hfree1 & Hcover).
  destruct (SaveReviews_fault_free reviews db1 Hfree1) as (db2 & Hrun2 & Hrows2 & _).
  rewrite (filterNew_seen _ _ Hcover) in Hrun2, Hrows2.
  simpl in Hrows2. rewrite app_nil_r in Hrows2.
  by exists db1, out1, db2.
Qed.

Lemma SaveReviews_second_pass_empty_witness :
  exists db1 out1 db2,
    SaveReviews [review_1; review_1_again; review_2] db_empty = (db1, (out1, None))
    /\ SaveReviews [review_1; review_1_again; review_2] db1 = (db2, ([], None))
    /\ rows db2 = rows db1.
Proof.
  destruct (SaveReviews_second_pass_empty [review_1; review_1_again; review_2] db_empty)
    as (db1 & out1 & db2 & Hrun1 & _ & Hrun2 & Hrows); [constructor|].
  exists db1, out1, db2. split; [exact Hrun1|]. split; [exact Hrun2 | exact Hrows].
Defined.

Lemma SaveReviews_body_post (review : Review) (postReviews : Reviews) (db : DB) :
  SaveReviews_body review postReviews db =
  let '(db', (out, err)) := SaveReviews_body review [] db in
  (db', (postReviews ++ out, err)).
Proof.
  unfold SaveReviews_body, SaveReviews_insert.
  destruct (QueryRow_Scan (Permalink review) db) as [db1 [id [e|]]].
  - destruct (negb (e =? ErrNoRows)%string); [by rewrite app_nil_r|].
    destruct (id =? 0)%Z; [|by rewrite app_nil_r].
    destruct (Exec_INSERT _ _ _ db1) as [db2 [e'|]]; by rewrite ?app_nil_r.
  - destruct (id =? 0)%Z; [|by rewrite app_nil_r].
    destruct (Exec_INSERT _ _ _ db1) as [db2 [e'|]]; by rewrite ?app_nil_r.
Qed.

Lemma SaveReviews_loop_post (reviews postReviews : Reviews) (db : DB) :
  SaveReviews_loop reviews postReviews db =
  let '(db', (out, err)) := SaveReviews_loop reviews [] db in
  (db', (postReviews ++ out, err)).
Proof.
  revert postReviews db. induction reviews as [|r reviews IH]; intros post db; simpl.
  { by rewrite app_nil_r. }
  rewrite SaveReviews_body_post.
  destruct (SaveReviews_body r [] db) as [db1 [out1 [e|]]]; [done|].
  rewrite (IH (post ++ out1)), (IH out1).
  destruct (SaveReviews_loop reviews [] db1) as [db2 [out2 err]].
  by rewrite app_assoc.
Qed.

(** X14: a pass over two batches in a row is the pass over the first batch
    followed, on the table it leaves, by the pass over the second: the
    reviews returned are those of the first pass and then those of the
    second.  When the first pass returns with an error, so does the whole,
    with the same table and reviews. *)
Theorem SaveReviews_batches (l1 l2 : Reviews) (db : DB) :
  match SaveReviews l1 db with
  | (db1, (out1, None)) =>
      SaveReviews (l1 ++ l2) db =
      let '(db2, (out2, err)) := SaveReviews l2 db1 in (db2, (out1 ++ out2, err))
  | (db1, (out1, Some e)) => SaveReviews (l1 ++ l2) db = (db1, (out1, Some e))
  end.
Proof.
  unfold SaveReviews. rewrite SaveReviews_loop_app.
  destruct (SaveReviews_loop l1 [] db) as [db1 [out1 [e|]]]; [done|].
  apply SaveReviews_loop_post.
Qed.

(** ** main *)










(** ** Further properties of SaveReviews and GetReview *)

(** X17: a review whose permalink is on record is passed over whatever its
    author and date are: when every review of the input is on record by its
    permalink and every call to the store goes through, the pass returns no
    review and leaves the rows as they are -- an edit of a recorded review
    is not noticed. *)
Theorem SaveReviews_ignores_recorded (reviews : Reviews) (db : DB) :
  fault_free db ->
  (forall r, r ∈ reviews -> Permalink r ∈ permalinks db) ->
  exists db', SaveReviews reviews db = (db', ([], None)) /\ rows db' = rows db.
Proof.
  intros Hfree Hseen.
  destruct (SaveReviews_fault_free reviews db Hfree) as (db' & Hrun & Hrows & _).
  rewrite (filterNew_seen _ _ Hseen) in Hrun, Hrows.
  exists db'. split; [done|]. simpl in Hrows. by rewrite app_nil_r in Hrows.
Qed.

Lemma SaveReviews_ignores_recorded_witness :
  exists db',
    SaveReviews [review_1_again; review_1]
      (mkDB [identity_record 1 review_1] 2 []) = (db', ([], None))
    /\ rows db' = [identity_record 1 review_1].
Proof.
  apply (SaveReviews_ignores_recorded [review_1_again; review_1]
           (mkDB [identity_record 1 review_1] 2 [])).
  - constructor.
  - intros r Hr. apply list_elem_of_In in Hr. simpl in Hr.
    destruct Hr as [<-|[<-|[]]]; apply list_elem_of_here.
Defined.

(** X18: on a page whose blocks all have link text, [GetReview] does not
    panic on the split, and the message of every review it returns is the
    body text of its block cut off where the link text first occurs in it,
    or all of the body text when the link text does not occur. *)
Theorem GetReview_parse_messages_cut (config : Config) (doc : list Selection) :
  (forall s, s ∈ doc -> REVIEW_LINK_text s <> "") ->
  exists reviews,
    GetReview_parse config doc = Done reviews
    /\ Forall (fun r => exists s,
                 s ∈ doc /\ review_from config s r
                 /\ cut_at_first (REVIEW_LINK_text s) (REVIEW_MESSAGE_text s) (Message r))
              reviews.
Proof.
  intros Hlinks. unfold GetReview_parse.
  destruct (GetReview_Each_outcome config doc [])
    as [((c & Hc & _ & Hlink & _) & _) | (_ & new & -> & Hnew)].
  { by destruct (Hlinks c Hc). }
  simpl. rewrite sort_Sort_isort. eexists. split; [reflexivity|].
  rewrite isort_Permutation.
  assert (forall s, s ∈ List.filter (date_parses config) doc -> s ∈ doc) as Hin.
  { intros s Hs. apply list_elem_of_In, filter_In in Hs as [Hs _].
    by apply list_elem_of_In. }
  induction Hnew as [|s r ss rs Hsr _ IH]; [constructor|].
  constructor.
  - exists s. assert (s ∈ doc) as Hs by (apply Hin; left).
    split; [done|]. split; [done|].
    destruct Hsr as (_ & _ & _ & _ & Hmsg & _).
    destruct (Split_head_cut (REVIEW_MESSAGE_text s) _ (Hlinks s Hs)) as (msg & Hhead & Hcut).
    rewrite Hhead in Hmsg. by injection Hmsg as <-.
  - apply IH. intros s' Hs'. apply Hin. by right.
Qed.

Lemma GetReview_parse_messages_cut_witness :
  exists first second,
    GetReview_parse config_en [block_older; block_read_more] = Done [first; second]
    /\ Message first = "Great app! " /\ Message second = "Works well. ".
Proof.
  destruct (GetReview_parse_messages_cut config_en [block_older; block_read_more])
    as (reviews & Hrun & _).
  - intros s Hs. apply list_elem_of_In in Hs. simpl in Hs.
    destruct Hs as [<-|[<-|[]]]; discriminate.
  - eexists _, _. split; [reflexivity|]. split; reflexivity.
Defined.
